(** * Minimalistic mesh slicer: a shallow embedding of [slicer.cpp]

    The development follows the class [Slicer] of [src/slicer.cpp]:
    the geometry kernel [get_lambda], the intersection cache behind
    [get_intersection], the per-triangle step [do_triangle], the
    driver loop [cut], and the OBJ reader and writer [clear], [load]
    and [save].  [read_json], which edits the whole file with two POSIX
    regular expressions, and [main] are outside the development.

    - [double] is IEEE 754 binary64, modelled by Rocq's primitive [float]
      (round to nearest, ties to even, no fused operations).
    - [int] is a 32-bit two's complement integer, modelled as [Z]; the
      only conversions in the code, [size_t -> int], are written out
      with their wrap-around ([Int.of_size]).
    - [size_t] is modelled as [nat]: a cursor or a size never reaches
      [2^64].
    - [std::vector] is a [list]; [operator[]] outside the bounds is
      undefined behaviour, modelled by [None].
    - [std::map<std::pair<int,int>,int>] is a [gmap (Z * Z) Z].
    - the [for] loop of [cut] has no syntactic bound and is run with
      fuel; [OutOfFuel] is not an outcome of the program.
    - a file is its content, a [list ascii]; the conversions between
      numbers and text are parameters of [load] and [save], and a write
      to a file that was opened succeeds. *)

From Stdlib Require Import ZArith List Bool Lia Floats QArith Qpower Lqa.
From Stdlib Require Import Ascii String.
From stdpp Require Import base option list gmap.

Local Open Scope Z_scope.

(** * The program *)

(** ** 32-bit [int] *)

Module Int.

Definition max_signed : Z := 2 ^ 31 - 1.
Definition modulus : Z := 2 ^ 32.

(** Conversion of an integer value to [int]: reduction modulo [2^32]
    into the signed range. *)
Definition wrap (z : Z) : Z := (z + 2 ^ 31) mod modulus - 2 ^ 31.

(** [size_t -> int], as in [int m = positions.size()] and in the
    call [do_triangle(tid)] with [size_t tid]. *)
Definition of_size (n : nat) : Z := wrap (Z.of_nat n).

End Int.

(** ** Data model *)

(** [using Vector = std::array<double, 3>] *)
Record Vector : Type := Vec { c0 : float; c1 : float; c2 : float }.

(** [using Triangle = std::array<int, 3>] *)
Record Triangle : Type := Tri { t0 : Z; t1 : Z; t2 : Z }.

(** [t[n]] for [n] in [0..2]; the code only indexes with [n], [(n+1) % 3]
    and [(n+2) % 3]. *)
Definition tri_nth (t : Triangle) (n : nat) : Z :=
  match n with
  | O => t0 t
  | S O => t1 t
  | _ => t2 t
  end.

(** The object state: the two public buffers, the plane, and the private
    cache [intersections]. *)
Record Slicer : Type := MkSlicer {
  positions : list Vector;
  triangles : list Triangle;
  origin : Vector;
  normal : Vector;
  intersections : gmap (Z * Z) Z
}.

(** [v[i]] on a [std::vector] with an [int] index: the index is converted
    to [size_t], so a negative one is far out of range. *)
Definition at_index {A : Type} (l : list A) (i : Z) : option A :=
  if (i <? 0)%Z then None else l !! Z.to_nat i.

(** [static constexpr double precision = 0.00001] *)
#[warnings="-inexact-float"]
Definition precision : float := 0.00001%float.

(** The value returned for "no intersection". *)
Definition NONE : Z := -1.

Definition set_intersections (s : Slicer) (c : gmap (Z * Z) Z) : Slicer :=
  MkSlicer (positions s) (triangles s) (origin s) (normal s) c.

Definition set_triangles (s : Slicer) (ts : list Triangle) : Slicer :=
  MkSlicer (positions s) ts (origin s) (normal s) (intersections s).

(** ** Geometry kernel *)

Section Kernel.
Local Open Scope float_scope.

(** [double get_lambda(Vector p, Vector q)] *)
Definition get_lambda (s : Slicer) (p q : Vector) : float :=
  let num := (c0 (origin s) - c0 q) * c0 (normal s)
           + (c1 (origin s) - c1 q) * c1 (normal s)
           + (c2 (origin s) - c2 q) * c2 (normal s) in
  let den := (c0 p - c0 q) * c0 (normal s)
           + (c1 p - c1 q) * c1 (normal s)
           + (c2 p - c2 q) * c2 (normal s) in
  num / den.

(** The test of line 199:
    [!std::isfinite(lambda) || lambda < precision || lambda > 1-precision] *)
Definition no_intersection (lambda : float) : bool :=
  negb (is_finite lambda) || (lambda <? precision) || (1 - precision <? lambda).

(** The vertex pushed at lines 208-213. *)
Definition interpolate (lambda : float) (p q : Vector) : Vector :=
  Vec (lambda * c0 p + (1 - lambda) * c0 q)
      (lambda * c1 p + (1 - lambda) * c1 q)
      (lambda * c2 p + (1 - lambda) * c2 q).

(** [origin[0] == 0 && origin[1] == 0 && origin[2] == 0] *)
Definition origin_is_zero (s : Slicer) : bool :=
  (c0 (origin s) =? 0) && (c1 (origin s) =? 0) && (c2 (origin s) =? 0).

End Kernel.

(** ** Intersection cache *)

(** [if (i > j) std::swap(i, j)] *)
Definition canonical (i j : Z) : Z * Z :=
  if (i >? j)%Z then (j, i) else (i, j).

(** [int get_intersection(int i, int j)]: the new state and the returned
    index. *)
Definition get_intersection (s : Slicer) (i j : Z) : option (Slicer * Z) :=
  let '(i, j) := canonical i j in
  p ← at_index (positions s) i;
  q ← at_index (positions s) j;
  let lambda := get_lambda s p q in
  if no_intersection lambda then Some (s, NONE)
  else
    let key := (i, j) in
    match intersections s !! key with
    | Some found => Some (s, found)
    | None =>
        let m := Int.of_size (length (positions s)) in
        Some (MkSlicer (positions s ++ [interpolate lambda p q])
                       (triangles s) (origin s) (normal s)
                       (<[key := m]> (intersections s)), m)
    end.

(** ** Retriangulation *)

(** [triangles.push_back(t)] *)
Definition push_triangle (s : Slicer) (t : Triangle) : Slicer :=
  set_triangles s (triangles s ++ [t]).

(** [triangles[tid] = t] *)
Definition assign_triangle (s : Slicer) (tid : Z) (t : Triangle) : option Slicer :=
  _ ← at_index (triangles s) tid;
  Some (set_triangles s (<[Z.to_nat tid := t]> (triangles s))).

(** The body of the [for (int n=0 ; n<3 ; n++)] loop of [do_triangle],
    started at [n] with [todo = 3 - n] iterations left. *)
Fixpoint do_triangle_from (s : Slicer) (tid : Z) (n todo : nat)
  : option (Slicer * bool) :=
  match todo with
  | O => Some (s, false)
  | S todo' =>
      t ← at_index (triangles s) tid;
      let i := tri_nth t n in
      let j := tri_nth t ((n + 1) mod 3) in
      let k := tri_nth t ((n + 2) mod 3) in
      '(s1, m) ← get_intersection s j k;
      if (m =? NONE)%Z then do_triangle_from s1 tid (S n) todo'
      else
        s2 ← assign_triangle (push_triangle s1 (Tri i j m)) tid (Tri i m k);
        Some (s2, true)
  end.

(** [bool do_triangle(int tid)] *)
Definition do_triangle (s : Slicer) (tid : Z) : option (Slicer * bool) :=
  do_triangle_from s tid 0 3.

(** How a run of the driver ends. *)
Inductive outcome : Type :=
| Done (s : Slicer)      (* [cut] returned in state [s] *)
| Undefined              (* an out-of-range [operator[]] was executed *)
| OutOfFuel.             (* the loop was still running *)

(** [for (size_t tid = 0 ; tid < triangles.size() ; tid += !do_triangle(tid));]
    from the loop head with cursor [tid]. *)
Fixpoint cut_loop (fuel : nat) (s : Slicer) (tid : nat) : outcome :=
  if decide (tid < length (triangles s))%nat then
    match fuel with
    | O => OutOfFuel
    | S fuel' =>
        match do_triangle s (Int.of_size tid) with
        | None => Undefined
        | Some (s', split) => cut_loop fuel' s' (if split then tid else S tid)
        end
    end
  else Done s.

(** [void cut()] *)
Definition cut (fuel : nat) (s : Slicer) : outcome :=
  let s := set_intersections s ∅ in
  if origin_is_zero s then Done s else cut_loop fuel s 0.

(** [cut] returns, and leaves the object in state [s']. *)
Definition cut_returns (s s' : Slicer) : Prop :=
  ∃ fuel, cut fuel s = Done s'.

(** The state and the cursor at the loop head of [cut] after [n] more
    evaluations of the loop body (fewer when the loop ends or runs into
    undefined behaviour before). *)
Fixpoint cut_state (n : nat) (s : Slicer) (tid : nat) : Slicer * nat :=
  match n with
  | O => (s, tid)
  | S n' =>
      if decide (tid < length (triangles s))%nat then
        match do_triangle s (Int.of_size tid) with
        | Some (s', split) => cut_state n' s' (if split then tid else S tid)
        | None => (s, tid)
        end
      else (s, tid)
  end.

(** ** Reading and writing OBJ files

    [load] and [save] work on the content of a file, a sequence of
    characters.  Whether a file can be opened is an input of the model.
    The conversions between numbers and text belong to the standard
    library and to the locale; they are parameters of the model
    ([num_get_double], [num_get_int], [put_double], [put_int]), and
    everything around them -- the lines, the white space, the state bits
    of the stream, the words [v] and [f], the shift of the indices -- is
    written out.  A local array that no extraction has written
    ([Vector p;], [Triangle t;]) holds indeterminate values; using them
    is undefined behaviour, modelled by [None]. *)

Module IO.

(** The contents of a file, or of a line: a sequence of characters. *)
Definition text : Type := list ascii.

Definition txt (s : string) : text := list_ascii_of_string s.

Definition newline : ascii := ascii_of_nat 10.

(** [std::isspace] in the classic locale: space, and [\t \n \v \f \r]. *)
Definition isspace (c : ascii) : bool :=
  let n := nat_of_ascii c in
  (n =? 32)%nat || ((9 <=? n)%nat && (n <=? 13)%nat).

Fixpoint skip_space (l : text) : text :=
  match l with
  | c :: l' => if isspace c then skip_space l' else l
  | [] => []
  end.

(** The longest prefix without white space, and what follows it. *)
Fixpoint take_word (l : text) : text * text :=
  match l with
  | c :: l' =>
      if isspace c then ([], l)
      else let '(w, r) := take_word l' in (c :: w, r)
  | [] => ([], [])
  end.

(** The state of a [std::istringstream]: the characters not read yet and
    the two state bits that formatted input sets. *)
Record istream : Type := MkIstream {
  pending : text;
  eofbit : bool;
  failbit : bool
}.

Definition good (st : istream) : bool := negb (eofbit st) && negb (failbit st).

(** [std::istringstream iss(line)] *)
Definition open_line (line : text) : istream := MkIstream line false false.

(** [istream::sentry]: on a good stream, skip white space; the
    extraction may proceed when a character is left.  Otherwise
    [failbit] is set (with [eofbit] when the end was reached). *)
Definition sentry (st : istream) : bool * istream :=
  if good st then
    match skip_space (pending st) with
    | [] => (false, MkIstream [] true true)
    | rest => (true, MkIstream rest false false)
    end
  else (false, MkIstream (pending st) (eofbit st) true).

(** [iss >> word] into an empty [std::string]. *)
Definition extract_word (st : istream) : text * istream :=
  let '(ok, st1) := sentry st in
  if ok then
    let '(w, r) := take_word (pending st1) in
    (w, MkIstream r (bool_decide (r = [])) false)
  else ([], st1).

(** What [std::num_get] reports for the characters at the head of a
    stream: the value it stores, whether the conversion failed, the
    characters it leaves, and whether it ran into the end. *)
Record extracted (A : Type) : Type := MkExtracted {
  stored : A;
  failed : bool;
  unread : text;
  at_eof : bool
}.
Arguments MkExtracted {A}.
Arguments stored {A}.
Arguments failed {A}.
Arguments unread {A}.
Arguments at_eof {A}.

(** [std::getline] in a loop: the lines of a text, a last line without
    its newline included. *)
Fixpoint getlines (l : text) : list text :=
  match l with
  | [] => []
  | c :: l' =>
      if Ascii.eqb c newline then [] :: getlines l'
      else match getlines l' with
           | [] => [[c]]
           | line :: rest => (c :: line) :: rest
           end
  end.

(** [clear()] *)
Definition clear (s : Slicer) : Slicer :=
  MkSlicer [] [] (origin s) (normal s) (intersections s).

(** [positions.push_back(p)] *)
Definition push_position (s : Slicer) (p : Vector) : Slicer :=
  MkSlicer (positions s ++ [p]) (triangles s) (origin s) (normal s)
           (intersections s).

(** [i--] and [i++] on an [int]: overflow is undefined. *)
Definition decrement (i : Z) : option Z :=
  if (i =? - 2 ^ 31) then None else Some (i - 1).

Definition increment (i : Z) : option Z :=
  if (i =? Int.max_signed) then None else Some (i + 1).

Section Files.

(** The number conversions of the standard library, for input
    ([std::num_get]) and for output ([operator<<]). *)
Variable num_get_double : text → extracted float.
Variable num_get_int : text → extracted Z.
Variable put_double : float → text.
Variable put_int : Z → text.

(** [iss >> x] for a [double] that holds [v] ([None]: not
    initialised).  When the sentry fails, [x] is left as it is. *)
Definition extract_double (st : istream) (v : option float)
  : option float * istream :=
  let '(ok, st1) := sentry st in
  if ok then
    let r := num_get_double (pending st1) in
    (Some (stored r), MkIstream (unread r) (at_eof r) (failed r))
  else (v, st1).

(** [iss >> i] for an [int]. *)
Definition extract_int (st : istream) (v : option Z) : option Z * istream :=
  let '(ok, st1) := sentry st in
  if ok then
    let r := num_get_int (pending st1) in
    (Some (stored r), MkIstream (unread r) (at_eof r) (failed r))
  else (v, st1).

(** [Vector p; iss >> p[0] >> p[1] >> p[2];] and the use of [p]: a
    component that no extraction wrote is indeterminate. *)
Definition read_vertex (st : istream) : option Vector :=
  let '(x, st) := extract_double st None in
  let '(y, st) := extract_double st None in
  let '(z, _) := extract_double st None in
  x ← x; y ← y; z ← z; Some (Vec x y z).

(** [Triangle t; iss >> t[0] >> t[1] >> t[2]; for (int& i : t) i--;] *)
Definition read_face (st : istream) : option Triangle :=
  let '(i, st) := extract_int st None in
  let '(j, st) := extract_int st None in
  let '(k, _) := extract_int st None in
  i ← i; j ← j; k ← k;
  i ← decrement i; j ← decrement j; k ← decrement k;
  Some (Tri i j k).

(** The body of the [while (std::getline(file, line))] loop of [load]. *)
Definition load_line (s : Slicer) (line : text) : option Slicer :=
  let '(prefix, iss) := extract_word (open_line line) in
  if decide (prefix = txt "v") then
    p ← read_vertex iss; Some (push_position s p)
  else if decide (prefix = txt "f") then
    t ← read_face iss; Some (push_triangle s t)
  else Some s.

Fixpoint load_lines (s : Slicer) (lines : list text) : option Slicer :=
  match lines with
  | [] => Some s
  | line :: lines' => s' ← load_line s line; load_lines s' lines'
  end.

(** [bool load(std::string filename)], where [file] is the content of
    the file of that name, if it can be opened.  The result is the new
    state and the value returned. *)
Definition load (file : option text) (s : Slicer) : option (Slicer * bool) :=
  let s := clear s in
  match file with
  | None => Some (s, false)
  | Some content => s' ← load_lines s (getlines content); Some (s', true)
  end.

(** [file << "v " << p[0] << " " << p[1] << " " << p[2] << std::endl] *)
Definition vertex_line (p : Vector) : text :=
  txt "v " ++ put_double (c0 p) ++ txt " " ++ put_double (c1 p)
  ++ txt " " ++ put_double (c2 p) ++ [newline].

(** [for (int& i : t) i++; file << "f " << t[0] << ... << std::endl] *)
Definition face_line (t : Triangle) : option text :=
  i ← increment (t0 t); j ← increment (t1 t); k ← increment (t2 t);
  Some (txt "f " ++ put_int i ++ txt " " ++ put_int j
        ++ txt " " ++ put_int k ++ [newline]).

(** [bool save(std::string filename)], where [can_open] tells whether
    the file can be opened for writing.  The result is the content
    written, or [None] when [save] returns [false]. *)
Definition save (can_open : bool) (s : Slicer) : option (option text) :=
  if can_open then
    faces ← mapM face_line (triangles s);
    Some (Some (concat (vertex_line <$> positions s) ++ concat faces))
  else Some None.

End Files.

End IO.

Import IO.

(** * Vocabulary of the statements *)

(** ** Edges and the crossing test *)

(** The parameter that [get_intersection i j] computes for the edge
    [{i, j}]: [get_lambda] at the positions of the canonical pair. *)
Definition edge_lambda (s : Slicer) (i j : Z) : option float :=
  let '(a, b) := canonical i j in
  p ← at_index (positions s) a;
  q ← at_index (positions s) b;
  Some (get_lambda s p q).

(** [lambda] is finite and lies in the closed interval
    [[precision, 1 - precision]]. *)
Definition in_tolerance (lambda : float) : Prop :=
  is_finite lambda = true ∧
  (precision <=? lambda)%float = true ∧
  (lambda <=? 1 - precision)%float = true.

(** The double nearest to [0.000005], half of the tolerance. *)
#[warnings="-inexact-float"]
Definition half_precision : float := 0.000005%float.

(** The edge [{i, j}] fails the test of line 199: its parameter is not
    finite, below [precision] or above [1 - precision]. *)
Definition edge_rejected (s : Slicer) (i j : Z) : Prop :=
  ∃ lambda, edge_lambda s i j = Some lambda ∧ no_intersection lambda = true.

(** The three edges of [t], in the order in which [do_triangle] visits
    them, are all rejected. *)
Definition triangle_rejected (s : Slicer) (t : Triangle) : Prop :=
  edge_rejected s (t1 t) (t2 t) ∧
  edge_rejected s (t2 t) (t0 t) ∧
  edge_rejected s (t0 t) (t1 t).

(** The test of line 199 on the edge [{i, j}], as a boolean. *)
Definition rejects (s : Slicer) (i j : Z) : bool :=
  match edge_lambda s i j with
  | Some lambda => no_intersection lambda
  | None => false
  end.

(** [normal[0] == 0 && normal[1] == 0 && normal[2] == 0]: the degenerate
    plane. *)
Definition normal_is_zero (s : Slicer) : bool :=
  ((c0 (normal s) =? 0) && (c1 (normal s) =? 0) && (c2 (normal s) =? 0))%float.

(** [x] is [+0], [-0] or a NaN. *)
Definition zero_or_nan (x : float) : Prop :=
  match Prim2SF x with
  | S754_zero _ | S754_nan => True
  | _ => False
  end.

(** ** Invariants and frames *)

(** [i] is an index into the vertex sequence. *)
Definition valid_index (s : Slicer) (i : Z) : Prop :=
  0 ≤ i < Z.of_nat (length (positions s)).

Definition valid_triangle (s : Slicer) (t : Triangle) : Prop :=
  valid_index s (t0 t) ∧ valid_index s (t1 t) ∧ valid_index s (t2 t).

(** The mesh invariant: every triangle's three indices are valid indices
    into the vertex sequence. *)
Definition valid_mesh (s : Slicer) : Prop :=
  Forall (valid_triangle s) (triangles s).

(** Every cached split index is a valid vertex index. *)
Definition valid_cache (s : Slicer) : Prop :=
  ∀ key m, intersections s !! key = Some m → valid_index s m.

(** Every vertex index of [s] is representable in [int]. *)
Definition vertices_fit (s : Slicer) : Prop :=
  Z.of_nat (length (positions s)) ≤ 2 ^ 31.

(** What a call made during one cut may do to the vertex sequence, the
    plane and the cache: vertices are appended, the plane is untouched,
    cache entries are added. *)
Record extends (s s' : Slicer) : Prop := MkExtends {
  ext_positions : positions s `prefix_of` positions s';
  ext_origin : origin s' = origin s;
  ext_normal : normal s' = normal s;
  ext_cache : intersections s ⊆ intersections s'
}.

(** The three [return] statements of [get_intersection]. *)
Inductive lookup_result (s : Slicer) (i j : Z) : Slicer → Z → Prop :=
| lookup_none lambda :
    edge_lambda s i j = Some lambda →
    no_intersection lambda = true →
    lookup_result s i j s NONE
| lookup_cached lambda m :
    edge_lambda s i j = Some lambda →
    no_intersection lambda = false →
    intersections s !! canonical i j = Some m →
    lookup_result s i j s m
| lookup_fresh p q :
    at_index (positions s) (canonical i j).1 = Some p →
    at_index (positions s) (canonical i j).2 = Some q →
    no_intersection (get_lambda s p q) = false →
    intersections s !! canonical i j = None →
    lookup_result s i j
      (MkSlicer (positions s ++ [interpolate (get_lambda s p q) p q])
                (triangles s) (origin s) (normal s)
                (<[canonical i j := Int.of_size (length (positions s))]>
                   (intersections s)))
      (Int.of_size (length (positions s))).

(** States linked by the calls that [cut] makes after it has cleared the
    cache: any sequence of [get_intersection] and [do_triangle] calls. *)
Inductive cut_calls : Slicer → Slicer → Prop :=
| calls_refl s : cut_calls s s
| calls_edge s s1 s2 i j m :
    get_intersection s i j = Some (s1, m) →
    cut_calls s1 s2 → cut_calls s s2
| calls_triangle s s1 s2 tid b :
    do_triangle s tid = Some (s1, b) →
    cut_calls s1 s2 → cut_calls s s2.

(** [k] visits of slot [c] in a row that all split, from [s] to [s']. *)
Inductive splits_at (c : nat) : nat → Slicer → Slicer → Prop :=
| splits_O s : splits_at c 0 s s
| splits_S k s s1 s2 :
    do_triangle s (Int.of_size c) = Some (s1, true) →
    splits_at c k s1 s2 →
    splits_at c (S k) s s2.

(** ** Split vertices and the weight of a triangle *)

(** The numerator of [get_lambda]: the signed offset of the plane from
    [q] along the normal, as the code computes it. *)
Definition plane_offset (s : Slicer) (q : Vector) : float :=
  ((c0 (origin s) - c0 q) * c0 (normal s)
   + (c1 (origin s) - c1 q) * c1 (normal s)
   + (c2 (origin s) - c2 q) * c2 (normal s))%float.

(** [q] evaluates as a point of the plane. *)
Definition on_plane (s : Slicer) (q : Vector) : bool :=
  (plane_offset s q =? 0)%float.

(** Every vertex appended since the cut began (the mesh had [v0]
    vertices then) evaluates as a point of the plane. *)
Definition splits_on_plane (v0 : nat) (s : Slicer) : bool :=
  forallb (on_plane s) (drop v0 (positions s)).

(** [i] is a vertex of the mesh as it was when the cut began. *)
Definition original (v0 : nat) (i : Z) : bool := (i <? Z.of_nat v0)%Z.

(** The edge [{i, j}] joins two original vertices, or it is rejected. *)
Definition edge_settled (v0 : nat) (s : Slicer) (i j : Z) : bool :=
  (original v0 i && original v0 j) || rejects s i j.

(** Every triangle edge with an end point created by the cut is
    rejected. *)
Definition splits_settled (v0 : nat) (s : Slicer) : bool :=
  forallb (λ t, edge_settled v0 s (t1 t) (t2 t)
                && edge_settled v0 s (t2 t) (t0 t)
                && edge_settled v0 s (t0 t) (t1 t))
          (triangles s).

(** Every cached split index was created by this cut. *)
Definition fresh_cache (v0 : nat) (s : Slicer) : Prop :=
  ∀ key m, intersections s !! key = Some m → Z.of_nat v0 ≤ m.

(** The number of splits a triangle can still cause when only edges
    between two original vertices can cross: three for a triangle of
    original vertices (one split, then one for each half), one for a
    triangle with a single such edge. *)
Definition weight (v0 : nat) (t : Triangle) : nat :=
  let a := original v0 (t0 t) in
  let b := original v0 (t1 t) in
  let c := original v0 (t2 t) in
  if a && b && c then 3%nat
  else if (b && c) || (c && a) || (a && b) then 1%nat
  else 0%nat.

Definition total_weight (v0 : nat) (ts : list Triangle) : nat :=
  sum_list_with (weight v0) ts.

(** ** The side of a vertex, and the edge count *)


(** The rational number that a finite double stands for. *)
Definition exact (x : float) : option Q :=
  match Prim2SF x with
  | S754_zero _ => Some 0%Q
  | S754_finite sg m e =>
      Some (inject_Z (if sg then Z.neg m else Z.pos m) * Qpower 2 e)%Q
  | _ => None
  end.




(** The three undirected edges of a triangle, as canonical pairs. *)
Definition edges_of (t : Triangle) : list (Z * Z) :=
  [canonical (t1 t) (t2 t); canonical (t2 t) (t0 t); canonical (t0 t) (t1 t)].

(** [E]: the number of distinct undirected edges of the triangles. *)
Definition unique_edges (ts : list Triangle) : nat :=
  length (remove_dups (ts ≫= edges_of)).

(** ** The slope of an edge, and the cache of a run *)

(** The denominator of [get_lambda]: the slope of the edge across the
    plane. *)
Definition plane_slope (s : Slicer) (p q : Vector) : float :=
  ((c0 p - c0 q) * c0 (normal s)
   + (c1 p - c1 q) * c1 (normal s)
   + (c2 p - c2 q) * c2 (normal s))%float.

(** Every triangle index of [s] is representable in [int]. *)
Definition triangles_fit (s : Slicer) : Prop :=
  Z.of_nat (length (triangles s)) ≤ 2 ^ 31.

(** The cache of a state reached by a cut that began with [v0] vertices:
    one entry per vertex created, each bound to a different one. *)
Record cache_matches (v0 : nat) (s : Slicer) : Prop := MkCacheMatches {
  cm_count : length (positions s) = (v0 + size (intersections s))%nat;
  cm_range : ∀ key m, intersections s !! key = Some m →
               Z.of_nat v0 ≤ m < Z.of_nat (length (positions s));
  cm_inj : ∀ k1 k2 m, intersections s !! k1 = Some m →
             intersections s !! k2 = Some m → k1 = k2
}.

(** Every entry of the cache binds a canonical pair to the vertex
    interpolated between the two end points at the computed parameter,
    which passes the test. *)
Definition cache_interpolates (s : Slicer) : Prop :=
  ∀ a b m, intersections s !! (a, b) = Some m →
    a ≤ b ∧
    ∃ p q, at_index (positions s) a = Some p ∧
           at_index (positions s) b = Some q ∧
           no_intersection (get_lambda s p q) = false ∧
           at_index (positions s) m
           = Some (interpolate (get_lambda s p q) p q).

(** A coordinate of [v] is a NaN. *)
Definition has_nan (v : Vector) : bool :=
  is_nan (c0 v) || is_nan (c1 v) || is_nan (c2 v).

(** ** A triangle on one side of the plane *)






(** ** Lines and numbers of an OBJ file *)

(** The first word of a line, as [load] reads it. *)
Definition first_word (line : text) : text := (extract_word (open_line line)).1.

(** No character of the text is a newline. *)
Definition one_line (line : text) : Prop :=
  Forall (λ c, Ascii.eqb c newline = false) line.

(** Every line of the text is ended by a newline. *)
Definition terminated (l : text) : Prop := l = [] ∨ last l = Some newline.

(** Two states with the same mesh. *)
Definition same_mesh (s1 s2 : Slicer) : Prop :=
  positions s1 = positions s2 ∧ triangles s1 = triangles s2.

(** A text that formatted output writes for a number: not empty, and
    without white space. *)
Definition field (t : text) : Prop :=
  t ≠ [] ∧ Forall (λ c, isspace c = false) t.

(** What follows a number in a line that [save] wrote: the end of the
    line, or a space. *)
Definition field_end (rest : text) : Prop :=
  rest = [] ∨ ∃ r, rest = " "%char :: r.

(** The text [t] is read back as the value [v]: the conversion
    succeeds, stops where [t] stops, and runs into the end of the
    stream only when nothing follows. *)
Definition reads_back {A : Type} (num_get : text → extracted A)
    (t : text) (v : A) : Prop :=
  field t ∧
  ∀ rest, field_end rest →
    num_get (t ++ rest) = MkExtracted v false rest (bool_decide (rest = [])).

(** All the coordinates, and all the vertex indices, of a mesh. *)
Definition coordinates (s : Slicer) : list float :=
  p ← positions s; [c0 p; c1 p; c2 p].

Definition indices (s : Slicer) : list Z :=
  t ← triangles s; [t0 t; t1 t; t2 t].

Definition map_vector (f : float → float) (p : Vector) : Vector :=
  Vec (f (c0 p)) (f (c1 p)) (f (c2 p)).

(** A line of three numbers after the one-letter word [w], as [save]
    writes it, without its newline. *)
Definition numbers_line (w : ascii) (a b c : text) : text :=
  w :: " "%char :: a ++ " "%char :: b ++ " "%char :: c.

(** The three numbers of a line [w a b c] are read back: as doubles
    when [w] is [v], as integers when [w] is [f]. *)
Definition numbers_read_back (num_get_double : text → extracted float)
    (num_get_int : text → extracted Z) (w : ascii) (a b c : text) : Prop :=
  (w = "v"%char
   ∧ ∃ x y z, reads_back num_get_double a x ∧ reads_back num_get_double b y
              ∧ reads_back num_get_double c z)
  ∨ (w = "f"%char
     ∧ ∃ i j k, reads_back num_get_int a i ∧ reads_back num_get_int b j
                ∧ reads_back num_get_int c k).

(** * Inputs *)

(** The normals of these inputs have components 0 and 1 only, so every
    product in [get_lambda] is exact; the parameters that pass the test
    are 0.5, or multiply coordinates 0 and 1, so every product in
    [interpolate] is exact too.  The runs below therefore do not depend
    on whether multiplications and additions are fused. *)

(** The scenario of the specification: one triangle cut by the plane
    [x = 1]. *)
Definition scenario : Slicer :=
  MkSlicer [Vec 0 0 0; Vec 2 0 0; Vec 0 2 0] [Tri 0 1 2]
           (Vec 1 0 0) (Vec 1 0 0) ∅.

(** The scenario after the first edge query. *)
Definition scenario_first : Slicer :=
  MkSlicer [Vec 0 0 0; Vec 2 0 0; Vec 0 2 0; Vec 1 1 0] [Tri 0 1 2]
           (Vec 1 0 0) (Vec 1 0 0) {[ (1, 2) := 3 ]}.

(** The scenario with a zero normal. *)
Definition flat : Slicer :=
  MkSlicer [Vec 0 0 0; Vec 2 0 0; Vec 0 2 0] [Tri 0 1 2]
           (Vec 1 0 0) (Vec 0 0 0) ∅.

(** A triangle across the plane [x = 0], whose origin is the world
    origin. *)
Definition through_origin : Slicer :=
  MkSlicer [Vec (-1) 0 0; Vec 1 0 0; Vec 1 2 0] [Tri 0 1 2]
           (Vec 0 0 0) (Vec 1 0 0) ∅.


(** Two vertices and a plane for which the parameter of the edge is
    exactly [precision]. *)
Definition boundary_state : Slicer :=
  MkSlicer [Vec 1 0 0; Vec 0 0 0] [] (Vec precision 0 0) (Vec 1 0 0) ∅.

(** The triangle of the scenario, stored four times. *)
Definition duplicated : Slicer :=
  MkSlicer [Vec 0 0 0; Vec 2 0 0; Vec 0 2 0]
           [Tri 0 1 2; Tri 0 1 2; Tri 0 1 2; Tri 0 1 2]
           (Vec 1 0 0) (Vec 1 0 0) ∅.

(** A triangle with coordinates near [2^53], where the spacing of
    doubles is 2: its vertices are at exact offsets 2, 1 and 3 from the
    plane [x + y + z = 2], all on the positive side. *)
Definition far : Slicer :=
  MkSlicer [Vec 9007199254740996 (-9007199254740994) 2;
            Vec 9007199254740996 (-9007199254740994) 1;
            Vec 9007199254740998 (-9007199254740994) 1]
           [Tri 0 1 2] (Vec 1 1 0) (Vec 1 1 1) ∅.

(** A thin triangle whose edge 1-2 joins two adjacent doubles: the
    split vertex of that edge rounds to vertex 2. *)
Definition looping_apex : Vector := Vec 1 0 1.
Definition looping_p : Vector := Vec 0x1.0000000000001p+0 0 0.
Definition looping_q : Vector := Vec 1 0 0.

Definition looping : Slicer :=
  MkSlicer [looping_apex; looping_p; looping_q] [Tri 0 1 2]
           (Vec 1 0x1p-53 0) (Vec 1 1 0) ∅.

(** The shape of the state each time the cursor reaches slot [n]. *)
Record looping_inv (n : nat) (s : Slicer) : Prop := MkLoopingInv {
  li_origin : origin s = origin looping;
  li_normal : normal s = normal looping;
  li_positions : positions s = looping_apex :: looping_p :: replicate (S n) looping_q;
  li_length : length (triangles s) = S n;
  li_last : triangles s !! n = Some (Tri 0 1 (Z.of_nat n + 2));
  li_cache : ∀ a b m, intersections s !! (a, b) = Some m → b ≤ Z.of_nat n + 1
}.

(** The state in which [cut] leaves the scenario. *)
Definition scenario_cut : Slicer :=
  MkSlicer [Vec 0 0 0; Vec 2 0 0; Vec 0 2 0; Vec 1 1 0; Vec 1 0 0]
           [Tri 0 3 2; Tri 3 4 1; Tri 3 0 4]
           (Vec 1 0 0) (Vec 1 0 0) {[ (1, 2) := 3; (0, 1) := 4 ]}.

(** A triangle whose three vertices are at the same position. *)
Definition collapsed : Slicer :=
  MkSlicer [Vec 2 1 0; Vec 2 1 0; Vec 2 1 0] [Tri 0 1 2]
           (Vec 1 0 0) (Vec 1 0 0) ∅.

(** The scenario with a NaN coordinate in its second vertex. *)
Definition stray : Slicer :=
  MkSlicer [Vec 0 0 0; Vec 2 nan 0; Vec 0 2 0] [Tri 0 1 2]
           (Vec 1 0 0) (Vec 1 0 0) ∅.

(** The scenario with a NaN component in the origin of the plane. *)
Definition unplaced : Slicer :=
  MkSlicer [Vec 0 0 0; Vec 2 0 0; Vec 0 2 0] [Tri 0 1 2]
           (Vec 1 nan 0) (Vec 1 0 0) ∅.

(** A number format of one digit, for the instances on files: enough
    to write and to read a mesh whose coordinates are 0 or 1 and whose
    indices are below 9. *)
Definition digit_put_int (i : Z) : text := [ascii_of_nat (48 + Z.to_nat i)].

Definition digit_get_int (t : text) : extracted Z :=
  match t with
  | c :: r =>
      let n := nat_of_ascii c in
      if ((48 <=? n) && (n <=? 57))%nat
      then MkExtracted (Z.of_nat n - 48) false r (bool_decide (r = []))
      else MkExtracted 0 true t false
  | [] => MkExtracted 0 true [] true
  end.

Definition digit_put_double (x : float) : text :=
  if (x =? 0)%float then txt "0"
  else if (x =? 1)%float then txt "1" else txt "2".

Definition digit_get_double (t : text) : extracted float :=
  let r := digit_get_int t in
  MkExtracted (PrimFloat.of_uint63 (Uint63.of_Z (stored r)))
              (failed r) (unread r) (at_eof r).

(** Two triangles over the corners of the unit square, and an OBJ file
    of that mesh with a comment, a normal and an empty line, whose last
    line has no newline. *)
Definition wedge : Slicer :=
  MkSlicer [Vec 0 0 0; Vec 1 0 0; Vec 0 1 0; Vec 1 1 0]
           [Tri 0 1 2; Tri 1 3 2] (Vec 2 0 0) (Vec 1 0 0) ∅.

Definition wedge_obj : text :=
  txt "# wedge
v 0 0 0
v 1 0 0
vn 0 0 1
v 0 1 0
v 1 1 0

f 1 2 3
f 2 4 3".

(** The scenario with its triangle stored from vertex 1: the first
    visit splits edge 0-1, and the rewritten triangle still crosses the
    plane on edge 1-2. *)
Definition rotated : Slicer :=
  MkSlicer [Vec 0 0 0; Vec 2 0 0; Vec 0 2 0] [Tri 1 2 0]
           (Vec 1 0 0) (Vec 1 0 0) ∅.

(** [rotated] after the query of edge 0-1. *)
Definition rotated_first : Slicer :=
  MkSlicer [Vec 0 0 0; Vec 2 0 0; Vec 0 2 0; Vec 1 0 0] [Tri 1 2 0]
           (Vec 1 0 0) (Vec 1 0 0) {[ (0, 1) := 3 ]}.

(** The state in which [cut] leaves [rotated]. *)
Definition rotated_cut : Slicer :=
  MkSlicer [Vec 0 0 0; Vec 2 0 0; Vec 0 2 0; Vec 1 0 0; Vec 1 1 0]
           [Tri 3 4 2; Tri 2 0 3; Tri 3 1 4]
           (Vec 1 0 0) (Vec 1 0 0) {[ (0, 1) := 3; (1, 2) := 4 ]}.

(** An ordinary triangle and an ordinary plane, with coordinates of
    one decimal. *)
#[warnings="-inexact-float"]
Definition oblique : Slicer :=
  MkSlicer [Vec 2.3 (-2.9) (-2.1); Vec (-2.8) (-0.7) 2.7; Vec 2.9 2.6 (-1.6)]
           [Tri 0 1 2] (Vec 2.2 1.8 (-1.3)) (Vec (-2.6) (-0.2) (-0.1)) ∅.

(** * Proofs *)

(** ** Facts on binary64 arithmetic

    Derived from the specification of the primitive operations
    ([FloatAxioms]) by case analysis on the class of the operands. *)

Module FloatFacts.
Local Open Scope float_scope.

Lemma is_zero_SF z : (z =? 0) = true -> exists sg, Prim2SF z = S754_zero sg.
Proof.
  rewrite FloatAxioms.eqb_spec. change (Prim2SF 0) with (S754_zero false).
  destruct (Prim2SF z) as [sg|sg| |sg m e]; try destruct sg; try discriminate; eauto.
Qed.

Lemma mul_zero_r x z : (z =? 0) = true -> zero_or_nan (x * z).
Proof.
  intros [sg Hz]%is_zero_SF. unfold zero_or_nan.
  rewrite FloatAxioms.mul_spec, Hz. destruct (Prim2SF x); exact I.
Qed.

Lemma add_zero_or_nan x y : zero_or_nan x -> zero_or_nan y -> zero_or_nan (x + y).
Proof.
  unfold zero_or_nan. rewrite FloatAxioms.add_spec.
  destruct (Prim2SF x) as [[]|[]| |[] ? ?], (Prim2SF y) as [[]|[]| |[] ? ?];
    simpl; tauto.
Qed.

Lemma div_zero_or_nan x y :
  zero_or_nan x -> zero_or_nan y -> Prim2SF (x / y) = S754_nan.
Proof.
  unfold zero_or_nan. rewrite FloatAxioms.div_spec.
  destruct (Prim2SF x) as [[]|[]| |[] ? ?], (Prim2SF y) as [[]|[]| |[] ? ?];
    simpl; tauto.
Qed.

(** A zero numerator gives a zero or a NaN quotient. *)
Lemma div_zero_l x y : (x =? 0) = true -> zero_or_nan (x / y).
Proof.
  intros [sg Hx]%is_zero_SF. unfold zero_or_nan.
  rewrite FloatAxioms.div_spec, Hx. destruct (Prim2SF y); exact I.
Qed.

Lemma nan_not_finite x : Prim2SF x = S754_nan -> is_finite x = false.
Proof.
  intros H. unfold is_finite, is_nan. rewrite FloatAxioms.eqb_spec, H. reflexivity.
Qed.

Lemma finite_not_nan x : is_finite x = true -> Prim2SF x <> S754_nan.
Proof.
  intros H E. rewrite (nan_not_finite _ E) in H. discriminate.
Qed.

Lemma SFcompare_antisym x y :
  SFcompare y x = option_map CompOpp (SFcompare x y).
Proof.
  destruct x as [[]|[]| |[] m1 e1], y as [[]|[]| |[] m2 e2]; simpl; try reflexivity.
  all: rewrite (Z.compare_antisym e1 e2); destruct (e1 ?= e2)%Z; simpl; try reflexivity.
  all: rewrite !Pos.compare_cont_spec; simpl; rewrite (Pos.compare_antisym m1 m2);
    destruct (m1 ?= m2)%positive; reflexivity.
Qed.

(** Away from NaN, [x < y] is the negation of [y <= x]. *)
Lemma ltb_negb_leb x y :
  Prim2SF x <> S754_nan -> Prim2SF y <> S754_nan ->
  (x <? y) = negb (y <=? x).
Proof.
  intros Hx Hy. rewrite FloatAxioms.ltb_spec, FloatAxioms.leb_spec.
  unfold SFltb, SFleb.
  rewrite (SFcompare_antisym (Prim2SF x) (Prim2SF y)).
  destruct (SFcompare (Prim2SF x) (Prim2SF y)) as [[]|] eqn:E; try reflexivity.
  destruct (Prim2SF x) as [[]|[]| |[] ? ?], (Prim2SF y) as [[]|[]| |[] ? ?];
    simpl in E; congruence.
Qed.

Lemma sub_diag x : zero_or_nan (x - x).
Proof.
  unfold zero_or_nan. rewrite FloatAxioms.sub_spec.
  destruct (Prim2SF x) as [[]|[]| |sg m e]; simpl; try exact I.
  rewrite Z.sub_diag. exact I.
Qed.

Lemma mul_zero_or_nan_l x y : zero_or_nan x -> zero_or_nan (x * y).
Proof.
  unfold zero_or_nan. rewrite FloatAxioms.mul_spec.
  destruct (Prim2SF x) as [sx|sx| |sx mx ex]; try tauto;
    destruct (Prim2SF y); simpl; tauto.
Qed.

(** A quotient by zero or by NaN is not finite. *)
Lemma div_by_zero_or_nan x y : zero_or_nan y -> is_finite (x / y) = false.
Proof.
  unfold zero_or_nan, is_finite, is_nan, is_infinity. intros Hy.
  rewrite FloatAxioms.eqb_spec, FloatAxioms.eqb_spec, FloatAxioms.abs_spec.
  rewrite FloatAxioms.div_spec.
  change (Prim2SF infinity) with (S754_infinity false).
  destruct (Prim2SF y) as [[]|sy| |sy my ey]; try tauto;
    destruct (Prim2SF x) as [[]|[]| |[] mx ex]; reflexivity.
Qed.

(** NaN is the only value that differs from itself. *)
Lemma is_nan_SF x : is_nan x = true -> Prim2SF x = S754_nan.
Proof.
  unfold is_nan. rewrite FloatAxioms.eqb_spec. unfold SFeqb.
  destruct (Prim2SF x) as [[]|[]| |[] m e]; simpl; try discriminate;
    try reflexivity.
  all: rewrite Z.compare_refl, ?Pos.compare_cont_refl, ?Pos.compare_refl;
    discriminate.
Qed.

(** Every operation of [get_lambda] propagates NaN. *)
Lemma nan_sub_l x y : Prim2SF x = S754_nan -> Prim2SF (x - y) = S754_nan.
Proof. intros H. rewrite FloatAxioms.sub_spec, H. reflexivity. Qed.

Lemma nan_sub_r x y : Prim2SF y = S754_nan -> Prim2SF (x - y) = S754_nan.
Proof.
  intros H. rewrite FloatAxioms.sub_spec, H. by destruct (Prim2SF x).
Qed.

Lemma nan_mul_l x y : Prim2SF x = S754_nan -> Prim2SF (x * y) = S754_nan.
Proof. intros H. rewrite FloatAxioms.mul_spec, H. reflexivity. Qed.

Lemma nan_mul_r x y : Prim2SF y = S754_nan -> Prim2SF (x * y) = S754_nan.
Proof.
  intros H. rewrite FloatAxioms.mul_spec, H. by destruct (Prim2SF x).
Qed.

Lemma nan_add_l x y : Prim2SF x = S754_nan -> Prim2SF (x + y) = S754_nan.
Proof. intros H. rewrite FloatAxioms.add_spec, H. reflexivity. Qed.

Lemma nan_add_r x y : Prim2SF y = S754_nan -> Prim2SF (x + y) = S754_nan.
Proof.
  intros H. rewrite FloatAxioms.add_spec, H. by destruct (Prim2SF x).
Qed.

Lemma nan_div_l x y : Prim2SF x = S754_nan -> Prim2SF (x / y) = S754_nan.
Proof. intros H. rewrite FloatAxioms.div_spec, H. reflexivity. Qed.

Lemma nan_div_r x y : Prim2SF y = S754_nan -> Prim2SF (x / y) = S754_nan.
Proof.
  intros H. rewrite FloatAxioms.div_spec, H. by destruct (Prim2SF x).
Qed.

End FloatFacts.

(** ** Rounding of a quotient

    The division of [SpecFloat], followed through its two shifts and
    its rounding step, as far as the sign and the exponent of the
    result. *)

Module FloatRounding.













Local Open Scope Q_scope.



End FloatRounding.

(** ** Basic lemmas *)

Lemma of_size_small (n : nat) :
  Z.of_nat n ≤ Int.max_signed → Int.of_size n = Z.of_nat n.
Proof.
  unfold Int.of_size, Int.wrap, Int.modulus, Int.max_signed. intros H.
  rewrite Z.mod_small by lia. lia.
Qed.

Lemma at_index_Some {A} (l : list A) (i : Z) (x : A) :
  at_index l i = Some x ↔ 0 ≤ i ∧ l !! Z.to_nat i = Some x.
Proof.
  unfold at_index. destruct (i <? 0) eqn:E.
  - apply Z.ltb_lt in E. split; [discriminate | lia].
  - apply Z.ltb_ge in E. tauto.
Qed.

Lemma at_index_of_nat {A} (l : list A) (n : nat) :
  at_index l (Z.of_nat n) = l !! n.
Proof.
  unfold at_index. destruct (Z.of_nat n <? 0) eqn:E.
  - apply Z.ltb_lt in E. lia.
  - now rewrite Nat2Z.id.
Qed.

Lemma at_index_range {A} (l : list A) (i : Z) (x : A) :
  at_index l i = Some x → 0 ≤ i < Z.of_nat (length l).
Proof.
  intros [H0 H]%at_index_Some. apply lookup_lt_Some in H. lia.
Qed.

Lemma at_index_is_Some {A} (l : list A) (i : Z) :
  0 ≤ i < Z.of_nat (length l) → is_Some (at_index l i).
Proof.
  intros H. unfold at_index. destruct (i <? 0) eqn:E.
  - apply Z.ltb_lt in E. lia.
  - apply lookup_lt_is_Some. lia.
Qed.

Lemma at_index_prefix {A} (l l' : list A) (i : Z) (x : A) :
  l `prefix_of` l' → at_index l i = Some x → at_index l' i = Some x.
Proof.
  intros Hp [H0 H]%at_index_Some. apply at_index_Some. split; [done|].
  by eapply prefix_lookup_Some.
Qed.

Lemma canonical_comm i j : canonical i j = canonical j i.
Proof.
  unfold canonical.
  destruct (i >? j) eqn:E1, (j >? i) eqn:E2; try reflexivity.
  - apply Z.gtb_lt in E1, E2. lia.
  - rewrite Z.gtb_ltb in E1, E2. apply Z.ltb_ge in E1, E2.
    by replace j with i by lia.
Qed.

Lemma canonical_le i j : (canonical i j).1 ≤ (canonical i j).2.
Proof.
  unfold canonical. destruct (i >? j) eqn:E; simpl.
  - apply Z.gtb_lt in E. lia.
  - rewrite Z.gtb_ltb in E. apply Z.ltb_ge in E. lia.
Qed.

Lemma canonical_cases i j :
  canonical i j = (i, j) ∨ canonical i j = (j, i).
Proof. unfold canonical. destruct (i >? j); auto. Qed.

(** The result of [get_intersection] does not depend on the order of
    its two arguments. *)
Lemma get_intersection_comm s i j :
  get_intersection s i j = get_intersection s j i.
Proof. unfold get_intersection. by rewrite (canonical_comm i j). Qed.

Lemma edge_lambda_Some s i j lambda :
  edge_lambda s i j = Some lambda ↔
  ∃ p q, at_index (positions s) (canonical i j).1 = Some p ∧
         at_index (positions s) (canonical i j).2 = Some q ∧
         lambda = get_lambda s p q.
Proof.
  unfold edge_lambda. destruct (canonical i j) as [a b]; simpl.
  destruct (at_index (positions s) a) as [p|]; simpl.
  2: { split; [discriminate | intros (? & ? & ? & _); discriminate]. }
  destruct (at_index (positions s) b) as [q|]; simpl.
  2: { split; [discriminate | intros (? & ? & ? & ? & _); discriminate]. }
  split.
  - intros [= <-]. eauto.
  - intros (? & ? & [= <-] & [= <-] & ->). reflexivity.
Qed.

Lemma get_intersection_spec s i j s' m :
  get_intersection s i j = Some (s', m) ↔ lookup_result s i j s' m.
Proof.
  unfold get_intersection. split.
  - destruct (canonical i j) as [a b] eqn:Ec.
    destruct (at_index (positions s) a) as [p|] eqn:Ep; simpl; [|discriminate].
    destruct (at_index (positions s) b) as [q|] eqn:Eq; simpl; [|discriminate].
    assert (El : edge_lambda s i j = Some (get_lambda s p q)).
    { apply edge_lambda_Some. rewrite Ec. eauto. }
    destruct (no_intersection (get_lambda s p q)) eqn:En.
    { intros [= <- <-]. by eapply lookup_none. }
    destruct (intersections s !! (a, b)) as [found|] eqn:Ef.
    { intros [= <- <-]. eapply lookup_cached; eauto. by rewrite Ec. }
    intros [= <- <-]. rewrite <- Ec.
    apply lookup_fresh; rewrite ?Ec; auto.
  - intros [lambda El En | lambda m' El En Ef | p q Ep Eq En Ef].
    + apply edge_lambda_Some in El as (p & q & Ep & Eq & ->).
      destruct (canonical i j) as [a b]; simpl in *.
      by rewrite Ep, Eq; simpl; rewrite En.
    + apply edge_lambda_Some in El as (p & q & Ep & Eq & ->).
      destruct (canonical i j) as [a b]; simpl in *.
      by rewrite Ep, Eq; simpl; rewrite En, Ef.
    + destruct (canonical i j) as [a b]; simpl in *.
      by rewrite Ep, Eq; simpl; rewrite En, Ef.
Qed.

(** ** Frame lemmas: what the calls leave alone *)

#[global] Instance extends_refl : Reflexive extends.
Proof. intros s. by split. Qed.

#[global] Instance extends_trans : Transitive extends.
Proof.
  intros s1 s2 s3 [P1 O1 N1 C1] [P2 O2 N2 C2]. split.
  - by etrans.
  - congruence.
  - congruence.
  - by etrans.
Qed.

Lemma get_lambda_plane s s' p q :
  origin s' = origin s → normal s' = normal s →
  get_lambda s' p q = get_lambda s p q.
Proof. unfold get_lambda. by intros -> ->. Qed.

Lemma extends_edge_lambda s s' i j lambda :
  extends s s' → edge_lambda s i j = Some lambda →
  edge_lambda s' i j = Some lambda.
Proof.
  intros [Hp Ho Hn _] (p & q & Ep & Eq & ->)%edge_lambda_Some.
  apply edge_lambda_Some. exists p, q.
  split_and!; eauto using at_index_prefix.
  symmetry. by apply get_lambda_plane.
Qed.

Lemma extends_valid_index s s' i :
  extends s s' → valid_index s i → valid_index s' i.
Proof.
  intros [Hp _ _ _]. unfold valid_index. apply prefix_length in Hp. lia.
Qed.

Lemma lookup_result_frame s i j s' m :
  lookup_result s i j s' m → extends s s' ∧ triangles s' = triangles s.
Proof.
  intros [| |p q Ep Eq En Ef]; try done. split; [|done]. split; simpl; try done.
  - by apply prefix_app_r.
  - by apply insert_subseteq.
Qed.

Lemma get_intersection_frame s i j s' m :
  get_intersection s i j = Some (s', m) →
  extends s s' ∧ triangles s' = triangles s.
Proof. intros H%get_intersection_spec. by eapply lookup_result_frame. Qed.

(** [do_triangle] either leaves the triangle sequence alone and answers
    [false], or answers [true] after one append and one rewrite of
    slot [tid]. *)
Lemma do_triangle_from_frame s tid n todo s' b :
  do_triangle_from s tid n todo = Some (s', b) →
  extends s s' ∧
  if b then
    0 ≤ tid < Z.of_nat (length (triangles s)) ∧
    ∃ kept added,
      triangles s' = <[Z.to_nat tid := kept]> (triangles s ++ [added])
  else triangles s' = triangles s.
Proof.
  revert s n. induction todo as [|todo IH]; intros s n; simpl.
  { intros [= <- <-]. done. }
  destruct (at_index (triangles s) tid) as [t|] eqn:Et; simpl; [|discriminate].
  destruct (get_intersection s _ _) as [[s1 m]|] eqn:Eg; simpl; [|discriminate].
  apply get_intersection_frame in Eg as [Hext Htri].
  destruct (m =? NONE) eqn:Em.
  - intros [Hext' Hb]%IH. split; [by etrans|].
    destruct b; rewrite Htri in Hb; done.
  - unfold assign_triangle, push_triangle. simpl.
    destruct (at_index (triangles s1 ++ _) tid) as [?|] eqn:Ea; simpl; [|discriminate].
    intros [= <- <-]. split.
    + etrans; [exact Hext|]. by split.
    + split; [by eapply at_index_range|]. rewrite Htri. simpl. eauto.
Qed.

Lemma do_triangle_frame s tid s' b :
  do_triangle s tid = Some (s', b) →
  extends s s' ∧
  if b then
    0 ≤ tid < Z.of_nat (length (triangles s)) ∧
    ∃ kept added,
      triangles s' = <[Z.to_nat tid := kept]> (triangles s ++ [added])
  else triangles s' = triangles s.
Proof. apply do_triangle_from_frame. Qed.

Lemma cut_calls_extends s s' : cut_calls s s' → extends s s'.
Proof.
  induction 1 as [s|s s1 s2 i j m Hg _ IH|s s1 s2 tid b Hd _ IH].
  - reflexivity.
  - apply get_intersection_frame in Hg as [? _]. by etrans.
  - apply do_triangle_frame in Hd as [? _]. by etrans.
Qed.

(** ** The intersection cache *)

(** After a call on a crossing edge, the canonical pair is a cache key
    bound to the returned index. *)
Lemma lookup_result_cached s i j s' m lambda :
  lookup_result s i j s' m →
  edge_lambda s i j = Some lambda → no_intersection lambda = false →
  intersections s' !! canonical i j = Some m.
Proof.
  intros [l El En| |p q Ep Eq En Ef] Hl Hn.
  - congruence.
  - done.
  - simpl. by rewrite lookup_insert_eq.
Qed.

Lemma get_intersection_hit s i j lambda m :
  edge_lambda s i j = Some lambda → no_intersection lambda = false →
  intersections s !! canonical i j = Some m →
  get_intersection s i j = Some (s, m).
Proof. intros. apply get_intersection_spec. by eapply lookup_cached. Qed.

Lemma get_intersection_defined s i j lambda :
  edge_lambda s i j = Some lambda →
  ∃ s' m, get_intersection s i j = Some (s', m).
Proof.
  intros El. pose proof El as (p & q & Ep & Eq & ->)%edge_lambda_Some.
  destruct (no_intersection (get_lambda s p q)) eqn:En.
  { exists s, NONE. apply get_intersection_spec. by eapply lookup_none. }
  destruct (intersections s !! canonical i j) as [m|] eqn:Ef.
  { exists s, m. by eapply get_intersection_hit. }
  eexists _, _. apply get_intersection_spec. by apply lookup_fresh.
Qed.

(** C5. For an edge [{i, j}] that crosses the plane, [get_intersection]
    answers the same split index for [(i, j)] and for [(j, i)], in the
    state of the first query and in every later state of the same cut,
    whichever calls were made in between.  The first query appends
    exactly one vertex when the edge is not cached yet (none when it
    is), and every later query leaves the whole state as it is, so the
    edge adds one vertex in total however many triangles ask for it. *)
Theorem edge_split_idempotent s i j lambda :
  edge_lambda s i j = Some lambda →
  no_intersection lambda = false →
  ∃ s1 m,
    get_intersection s i j = Some (s1, m) ∧
    get_intersection s j i = Some (s1, m) ∧
    (intersections s !! canonical i j = None →
       length (positions s1) = S (length (positions s))) ∧
    (is_Some (intersections s !! canonical i j) → s1 = s) ∧
    ∀ s2, cut_calls s1 s2 →
      get_intersection s2 i j = Some (s2, m) ∧
      get_intersection s2 j i = Some (s2, m).
Proof.
  intros El En.
  destruct (get_intersection_defined s i j lambda El) as (s1 & m & Hg).
  exists s1, m. split; [done|]. split; [by rewrite <- get_intersection_comm|].
  pose proof Hg as Hr%get_intersection_spec.
  pose proof (lookup_result_cached _ _ _ _ _ _ Hr El En) as Hc.
  pose proof (lookup_result_frame _ _ _ _ _ Hr) as [Hext _].
  split; [|split].
  - intros Hnone. destruct Hr as [l El' En'| l m' El' En' Ef |p q Ep Eq En' Ef].
    + congruence.
    + congruence.
    + simpl. rewrite length_app. simpl. lia.
  - intros [m' Hm']. destruct Hr as [l El' En'| l m'' El' En' Ef |p q Ep Eq En' Ef];
      congruence.
  - intros s2 Hcalls%cut_calls_extends.
    assert (Hs2 : get_intersection s2 i j = Some (s2, m)).
    { eapply get_intersection_hit; [| exact En |].
      - eapply extends_edge_lambda; [|exact El]. by etrans.
      - eapply lookup_weaken; [exact Hc|]. apply Hcalls. }
    split; [done|]. by rewrite <- get_intersection_comm.
Qed.

(** [get_intersection] on valid indices: the three ways it returns. *)
Lemma get_intersection_total s i j :
  valid_index s i → valid_index s j → valid_cache s →
  Z.of_nat (length (positions s)) ≤ Int.max_signed →
  ∃ s' m lambda,
    get_intersection s i j = Some (s', m) ∧
    edge_lambda s i j = Some lambda ∧
    ((no_intersection lambda = true ∧ m = NONE ∧ s' = s)
     ∨ (no_intersection lambda = false ∧ valid_index s' m ∧ m ≠ NONE ∧
        triangles s' = triangles s ∧
        ((intersections s !! canonical i j = Some m ∧ s' = s)
         ∨ (intersections s !! canonical i j = None ∧
            m = Z.of_nat (length (positions s)) ∧
            intersections s' = <[canonical i j := m]> (intersections s) ∧
            ∃ v, positions s' = positions s ++ [v])))).
Proof.
  intros Hi Hj Hc Hsz.
  assert (El : ∃ lambda, edge_lambda s i j = Some lambda).
  { destruct (at_index_is_Some (positions s) (canonical i j).1) as [p Ep].
    { destruct (canonical_cases i j) as [-> | ->]; simpl; apply Hi || apply Hj. }
    destruct (at_index_is_Some (positions s) (canonical i j).2) as [q Eq].
    { destruct (canonical_cases i j) as [-> | ->]; simpl; apply Hi || apply Hj. }
    exists (get_lambda s p q). apply edge_lambda_Some. eauto. }
  destruct El as [lambda El].
  destruct (get_intersection_defined s i j lambda El) as (s' & m & Hg).
  exists s', m, lambda. split; [done|]. split; [done|].
  apply get_intersection_spec in Hg.
  destruct Hg as [l El' En| l m' El' En Ef |p q Ep Eq En Ef].
  - left. split; [congruence | done].
  - right. pose proof (Hc _ _ Ef) as Hm.
    split; [congruence|]. split; [done|]. split.
    { unfold valid_index, NONE in *. lia. }
    split; [done|]. by left.
  - right. rewrite of_size_small by done.
    assert (lambda = get_lambda s p q) as ->.
    { apply edge_lambda_Some in El as (p' & q' & Ep' & Eq' & ->). congruence. }
    split; [done|]. split.
    { unfold valid_index. simpl. rewrite length_app. simpl. lia. }
    split; [unfold NONE; lia|]. split; [done|]. right.
    split; [done|]. split; [done|]. split; [done|]. eauto.
Qed.

(** C9. A call of [get_intersection] on two valid vertex indices always
    returns.  Either the parameter of the edge fails the test of line
    199 (not finite, below [precision] or above [1 - precision]) and
    the call answers [NONE] in an unchanged state, or it passes and the
    call answers a valid vertex index: the cached one, in an unchanged
    state, or the index of the one vertex it appends and records. *)
Theorem get_intersection_outcome s i j :
  valid_index s i → valid_index s j → valid_cache s →
  Z.of_nat (length (positions s)) ≤ Int.max_signed →
  ∃ s' m lambda,
    get_intersection s i j = Some (s', m) ∧
    edge_lambda s i j = Some lambda ∧
    ((no_intersection lambda = true ∧ m = NONE ∧ s' = s)
     ∨ (no_intersection lambda = false ∧ valid_index s' m ∧ m ≠ NONE ∧
        triangles s' = triangles s ∧
        ((intersections s !! canonical i j = Some m ∧ s' = s)
         ∨ (intersections s !! canonical i j = None ∧
            m = Z.of_nat (length (positions s)) ∧
            intersections s' = <[canonical i j := m]> (intersections s) ∧
            ∃ v, positions s' = positions s ++ [v])))).
Proof. apply get_intersection_total. Qed.

(** ** The per-triangle step *)

Lemma get_intersection_rejected s i j :
  edge_rejected s i j → get_intersection s i j = Some (s, NONE).
Proof.
  intros (lambda & El & En). apply get_intersection_spec. by eapply lookup_none.
Qed.

Lemma do_triangle_rejected s tid t :
  at_index (triangles s) tid = Some t →
  triangle_rejected s t →
  do_triangle s tid = Some (s, false).
Proof.
  intros Et (H0 & H1 & H2). unfold do_triangle. simpl.
  rewrite Et. simpl.
  rewrite (get_intersection_rejected _ _ _ H0). simpl.
  rewrite Et. simpl.
  rewrite (get_intersection_rejected _ _ _ H1). simpl.
  rewrite Et. simpl.
  rewrite (get_intersection_rejected _ _ _ H2). simpl.
  reflexivity.
Qed.

Lemma cut_loop_split fuel s c s' :
  (c < length (triangles s))%nat →
  do_triangle s (Int.of_size c) = Some (s', true) →
  cut_loop (S fuel) s c = cut_loop fuel s' c.
Proof. intros Hc Hd. simpl. rewrite decide_True by done. by rewrite Hd. Qed.

Lemma cut_loop_advance fuel s c s' :
  (c < length (triangles s))%nat →
  do_triangle s (Int.of_size c) = Some (s', false) →
  cut_loop (S fuel) s c = cut_loop fuel s' (S c).
Proof. intros Hc Hd. simpl. rewrite decide_True by done. by rewrite Hd. Qed.

Lemma cut_loop_end fuel s c :
  ¬ (c < length (triangles s))%nat → cut_loop fuel s c = Done s.
Proof. intros Hc. destruct fuel; simpl; by rewrite decide_False. Qed.

(** More fuel does not change a finished run. *)
Lemma cut_loop_fuel_mono fuel fuel' s c s' :
  cut_loop fuel s c = Done s' → (fuel ≤ fuel')%nat →
  cut_loop fuel' s c = Done s'.
Proof.
  revert fuel' s c. induction fuel as [|fuel IH]; intros fuel' s c.
  - simpl. destruct (decide (c < length (triangles s))%nat) as [Hc|Hc];
      [discriminate|].
    intros [= <-] _. by apply cut_loop_end.
  - intros H Hle. destruct fuel' as [|fuel']; [lia|].
    simpl in *. destruct (decide (c < length (triangles s))%nat); [|done].
    destruct (do_triangle s (Int.of_size c)) as [[s1 b]|]; [|discriminate].
    apply IH; [done | lia].
Qed.

(** The visit of a triangle whose first yielding edge is the one
    opposite position [n]. *)
Lemma do_triangle_split_at s tid t n s1 m :
  at_index (triangles s) tid = Some t →
  (n < 3)%nat →
  (∀ n', (n' < n)%nat →
     get_intersection s (tri_nth t ((n' + 1) mod 3)) (tri_nth t ((n' + 2) mod 3))
     = Some (s, NONE)) →
  get_intersection s (tri_nth t ((n + 1) mod 3)) (tri_nth t ((n + 2) mod 3))
  = Some (s1, m) →
  m ≠ NONE →
  do_triangle s tid =
  Some (set_triangles s1
          (<[Z.to_nat tid := Tri (tri_nth t n) m (tri_nth t ((n + 2) mod 3))]>
             (triangles s ++ [Tri (tri_nth t n) (tri_nth t ((n + 1) mod 3)) m])),
        true).
Proof.
  intros Et Hn Hbefore Hg Hm.
  set (i := tri_nth t n). set (j := tri_nth t ((n + 1) mod 3)).
  set (k := tri_nth t ((n + 2) mod 3)).
  set (s' := set_triangles s1
               (<[Z.to_nat tid := Tri i m k]> (triangles s ++ [Tri i j m]))).
  pose proof Hg as [_ Htri]%get_intersection_frame.
  assert (Hsplit :
    (s2 ← assign_triangle (push_triangle s1 (Tri i j m)) tid (Tri i m k);
     Some (s2, true)) = Some (s', true)).
  { unfold assign_triangle, push_triangle. simpl. rewrite Htri.
    destruct (at_index (triangles s ++ [Tri i j m]) tid) as [x|] eqn:Ea; [done|].
    exfalso. destruct (at_index_is_Some (triangles s ++ [Tri i j m]) tid)
      as [x Hx]; [|congruence].
    apply at_index_range in Et. rewrite length_app. simpl. lia. }
  assert (Hne : (m =? NONE) = false) by by apply Z.eqb_neq.
  unfold do_triangle. subst i j k.
  destruct n as [|[|[|n]]]; [| | |lia].
  - simpl. rewrite Et. simpl. simpl in Hg. rewrite Hg. simpl. rewrite Hne.
    exact Hsplit.
  - pose proof (Hbefore 0%nat ltac:(lia)) as H0. simpl in H0.
    simpl. rewrite Et. simpl. rewrite H0. simpl.
    rewrite Et. simpl. simpl in Hg. rewrite Hg. simpl. rewrite Hne.
    exact Hsplit.
  - pose proof (Hbefore 0%nat ltac:(lia)) as H0. simpl in H0.
    pose proof (Hbefore 1%nat ltac:(lia)) as H1. simpl in H1.
    simpl. rewrite Et. simpl. rewrite H0. simpl.
    rewrite Et. simpl. rewrite H1. simpl.
    rewrite Et. simpl. simpl in Hg. rewrite Hg. simpl. rewrite Hne.
    exact Hsplit.
Qed.

Lemma do_triangle_split_length s tid s' :
  do_triangle s tid = Some (s', true) →
  length (triangles s') = S (length (triangles s)).
Proof.
  intros [_ (_ & kept & added & Ht)]%do_triangle_frame.
  rewrite Ht, length_insert, length_app. simpl. lia.
Qed.

(** While the visits of a slot split, the cursor stays on it. *)
Lemma splits_at_cut_state c k s s' :
  splits_at c k s s' → (c < length (triangles s))%nat →
  cut_state k s c = (s', c) ∧ (c < length (triangles s'))%nat
  ∧ ∀ fuel, cut_loop (k + fuel) s c = cut_loop fuel s' c.
Proof.
  induction 1 as [s|k s s1 s2 Hd _ IH]; intros Hc; [done|].
  pose proof (do_triangle_split_length _ _ _ Hd) as Hl.
  destruct IH as (IH1 & IH2 & IH3); [lia|].
  split_and!; [|done|].
  - simpl. rewrite decide_True by done. by rewrite Hd.
  - intros fuel. simpl. rewrite decide_True by done. by rewrite Hd.
Qed.

(** A loop that returns has left the slot it stood on only after a
    visit that answered [false], and after splitting visits only. *)
Lemma cut_loop_leaves_slot fuel :
  ∀ s c r,
    cut_loop fuel s c = Done r → (c < length (triangles s))%nat →
    ∃ k s_k s_e,
      splits_at c k s s_k ∧
      do_triangle s_k (Int.of_size c) = Some (s_e, false) ∧
      (k + 1 ≤ fuel)%nat ∧
      cut_state (k + 1) s c = (s_e, S c) ∧
      cut_loop (fuel - (k + 1)) s_e (S c) = Done r.
Proof.
  induction fuel as [|fuel IH]; intros s c r Hrun Hc; simpl in Hrun;
    rewrite decide_True in Hrun by done; [done|].
  destruct (do_triangle s (Int.of_size c)) as [[s1 []]|] eqn:Hd; [| |done].
  - pose proof (do_triangle_split_length _ _ _ Hd) as Hl.
    destruct (IH s1 c r Hrun ltac:(lia)) as (k & s_k & s_e & Hk & He & Hf & Hs & Hr).
    exists (S k), s_k, s_e. split_and!; try done.
    + by eapply splits_S.
    + lia.
    + simpl. rewrite decide_True by done. by rewrite Hd.
  - exists 0%nat, s, s1. split_and!; try done.
    + constructor.
    + lia.
    + simpl. rewrite decide_True by done. by rewrite Hd.
    + simpl. by rewrite Nat.sub_0_r.
Qed.

(** The cursor moves off a slot only after a visit that answered
    [false], and after splitting visits only. *)
Lemma cut_state_leaves_slot n :
  ∀ s c,
    (cut_state n s c).2 ≠ c →
    ∃ k s_k s_e,
      splits_at c k s s_k ∧
      do_triangle s_k (Int.of_size c) = Some (s_e, false) ∧
      (k + 1 ≤ n)%nat.
Proof.
  induction n as [|n IH]; intros s c Hmove; simpl in Hmove; [done|].
  destruct (decide (c < length (triangles s))%nat); [|done].
  destruct (do_triangle s (Int.of_size c)) as [[s1 []]|] eqn:Hd; [| |done].
  - destruct (IH s1 c Hmove) as (k & s_k & s_e & Hk & He & Hn).
    exists (S k), s_k, s_e. split_and!; [by eapply splits_S|done|lia].
  - exists 0%nat, s, s1. split_and!; [constructor|done|lia].
Qed.

(** C6. One visit of triangle [tid = (t[0], t[1], t[2])].  Let [n] be
    the first position, in the order 0, 1, 2, whose opposite edge
    [(j, k) = (t[n+1], t[n+2])] yields a split vertex [m] (the edges
    before it answered [NONE]).  Then [do_triangle] answers [true] in
    the state left by that one query, with the triangle [(i, j, m)]
    appended and slot [tid] rewritten to [(i, m, k)], where [i = t[n]];
    nothing else changes, so no further edge is acted on.  The loop of
    [cut] then stands on slot [tid] again, in that state, and stays on
    it as long as its visits split; the cursor leaves slot [tid] only
    after a visit that answered [false], having made only splitting
    visits of that slot before, and so it is when the loop returns. *)
Theorem do_triangle_first_split s tid t n s1 m :
  at_index (triangles s) tid = Some t →
  (n < 3)%nat →
  (∀ n', (n' < n)%nat →
     get_intersection s (tri_nth t ((n' + 1) mod 3)) (tri_nth t ((n' + 2) mod 3))
     = Some (s, NONE)) →
  get_intersection s (tri_nth t ((n + 1) mod 3)) (tri_nth t ((n + 2) mod 3))
  = Some (s1, m) →
  m ≠ NONE →
  let i := tri_nth t n in
  let j := tri_nth t ((n + 1) mod 3) in
  let k := tri_nth t ((n + 2) mod 3) in
  let s' := set_triangles s1
              (<[Z.to_nat tid := Tri i m k]> (triangles s ++ [Tri i j m])) in
  do_triangle s tid = Some (s', true) ∧
  (∀ fuel c, (c < length (triangles s))%nat → Int.of_size c = tid →
     cut_loop (S fuel) s c = cut_loop fuel s' c) ∧
  (∀ fuel c s'', (c < length (triangles s'))%nat →
     do_triangle s' (Int.of_size c) = Some (s'', false) →
     cut_loop (S fuel) s' c = cut_loop fuel s'' (S c)) ∧
  (∀ c, (c < length (triangles s))%nat → Int.of_size c = tid →
     cut_state 1 s c = (s', c) ∧
     (∀ v s_v, splits_at c v s' s_v →
        cut_state (S v) s c = (s_v, c) ∧
        ∀ fuel, cut_loop (S v + fuel) s c = cut_loop fuel s_v c) ∧
     (∀ n', (cut_state n' s c).2 ≠ c →
        ∃ v s_v s_e,
          splits_at c v s' s_v ∧
          do_triangle s_v tid = Some (s_e, false) ∧
          (v + 2 ≤ n')%nat) ∧
     (∀ fuel r, cut_loop fuel s c = Done r →
        ∃ v s_v s_e,
          splits_at c v s' s_v ∧
          do_triangle s_v tid = Some (s_e, false) ∧
          (v + 2 ≤ fuel)%nat ∧
          cut_state (v + 2) s c = (s_e, S c) ∧
          cut_loop (fuel - (v + 2)) s_e (S c) = Done r)).
Proof.
  intros Et Hn Hbefore Hg Hm i j k s'.
  pose proof (do_triangle_split_at s tid t n s1 m Et Hn Hbefore Hg Hm) as Hd.
  fold i j k s' in Hd.
  split; [done|]. split; [|split].
  - intros fuel c Hc <-. by apply cut_loop_split.
  - intros fuel c s'' Hc Hf. by apply cut_loop_advance.
  - intros c Hc <-.
    pose proof (do_triangle_split_length _ _ _ Hd) as Hl.
    assert (Hone : cut_state 1 s c = (s', c)).
    { simpl. rewrite decide_True by done. by rewrite Hd. }
    split; [done|]. split; [|split].
    + intros v s_v Hv.
      destruct (splits_at_cut_state c v s' s_v Hv ltac:(lia)) as (H1 & _ & H2).
      split.
      * simpl. rewrite decide_True by done. by rewrite Hd.
      * intros fuel. rewrite <- H2. simpl.
        rewrite decide_True by done. by rewrite Hd.
    + intros n' Hmove.
      destruct (cut_state_leaves_slot n' s c Hmove)
        as (v & s_v & s_e & Hv & He & Hf).
      inversion Hv as [|v' ? sa sb Hda Hrest]; subst.
      { rewrite Hd in He. discriminate. }
      rewrite Hd in Hda. injection Hda as <-.
      exists v', s_v, s_e. split_and!; [done|done|lia].
    + intros fuel r Hrun.
      destruct (cut_loop_leaves_slot fuel s c r Hrun Hc)
        as (v & s_v & s_e & Hv & He & Hf & Hs & Hr).
      inversion Hv as [|v' ? sa sb Hda Hrest]; subst.
      { rewrite Hd in He. discriminate. }
      rewrite Hd in Hda. injection Hda as <-.
      exists v', s_v, s_e.
      replace (v' + 2)%nat with (S v' + 1)%nat by lia.
      split_and!; try done.
Qed.

(** ** Triangles that do not split *)

Lemma valid_edge_lambda s i j :
  valid_index s i → valid_index s j → ∃ lambda, edge_lambda s i j = Some lambda.
Proof.
  intros Hi Hj.
  destruct (at_index_is_Some (positions s) (canonical i j).1) as [p Ep].
  { destruct (canonical_cases i j) as [-> | ->]; simpl; apply Hi || apply Hj. }
  destruct (at_index_is_Some (positions s) (canonical i j).2) as [q Eq].
  { destruct (canonical_cases i j) as [-> | ->]; simpl; apply Hi || apply Hj. }
  exists (get_lambda s p q). apply edge_lambda_Some. eauto.
Qed.

Lemma nan_no_intersection lambda :
  Prim2SF lambda = S754_nan → no_intersection lambda = true.
Proof.
  intros H. unfold no_intersection.
  by rewrite (FloatFacts.nan_not_finite _ H).
Qed.

(** With a zero normal both dot products are [0] or NaN, and their
    quotient is NaN. *)
Lemma zero_normal_lambda s p q :
  normal_is_zero s = true → Prim2SF (get_lambda s p q) = S754_nan.
Proof.
  unfold normal_is_zero. intros [[H0 H1]%andb_prop H2]%andb_prop.
  unfold get_lambda.
  apply FloatFacts.div_zero_or_nan;
    repeat apply FloatFacts.add_zero_or_nan;
    by apply FloatFacts.mul_zero_r.
Qed.

Lemma zero_normal_rejected s t :
  normal_is_zero s = true → valid_triangle s t → triangle_rejected s t.
Proof.
  intros Hz (H0 & H1 & H2).
  assert (Hedge : ∀ i j, valid_index s i → valid_index s j → edge_rejected s i j).
  { intros i j Hi Hj. destruct (valid_edge_lambda s i j Hi Hj) as [lambda El].
    exists lambda. split; [done|].
    apply edge_lambda_Some in El as (p & q & _ & _ & ->).
    apply nan_no_intersection. by apply zero_normal_lambda. }
  split_and!; by apply Hedge.
Qed.

(** When every triangle is rejected, the loop walks to the end of the
    triangle sequence and leaves the state as it found it. *)
Lemma cut_loop_all_rejected s :
  Forall (triangle_rejected s) (triangles s) →
  Z.of_nat (length (triangles s)) ≤ 2 ^ 31 →
  ∀ fuel c, (length (triangles s) - c ≤ fuel)%nat →
    cut_loop fuel s c = Done s.
Proof.
  intros Hall Hsz fuel. induction fuel as [|fuel IH]; intros c Hc.
  - apply cut_loop_end. lia.
  - destruct (decide (c < length (triangles s))%nat) as [Hlt|Hge].
    2: by apply cut_loop_end.
    destruct (lookup_lt_is_Some_2 (triangles s) c Hlt) as [t Ht].
    rewrite (cut_loop_advance fuel s c s); [apply IH; lia | done |].
    rewrite of_size_small by (unfold Int.max_signed; lia).
    apply (do_triangle_rejected s _ t).
    + by rewrite at_index_of_nat.
    + rewrite Forall_lookup in Hall. by eapply Hall.
Qed.

(** C2. A cut with a zero normal, on a mesh with valid triangle indices
    (whose triangle indices fit in [int]), returns after at most one
    visit per triangle and leaves the vertex sequence and the triangle
    sequence as they were.  It is an ordinary return: there is no error
    outcome, and no out-of-range access. *)
Theorem cut_zero_normal_noop s fuel :
  normal_is_zero s = true →
  valid_mesh s →
  Z.of_nat (length (triangles s)) ≤ 2 ^ 31 →
  (length (triangles s) ≤ fuel)%nat →
  ∃ s', cut fuel s = Done s' ∧
        positions s' = positions s ∧ triangles s' = triangles s.
Proof.
  intros Hz Hv Hsz Hfuel. exists (set_intersections s ∅).
  split; [|done]. unfold cut.
  destruct (origin_is_zero (set_intersections s ∅)); [done|].
  apply cut_loop_all_rejected; simpl; [|done|lia].
  eapply Forall_impl; [exact Hv|].
  intros t Ht. by apply zero_normal_rejected.
Qed.

(** C3. When the three coordinates of the plane origin compare equal to
    zero, [cut] clears the cache and returns at once: whatever the
    normal, the mesh and the fuel, the vertex sequence and the triangle
    sequence are untouched. *)
Theorem cut_origin_zero_returns s fuel :
  origin_is_zero s = true →
  cut fuel s = Done (set_intersections s ∅) ∧
  intersections (set_intersections s ∅) = ∅ ∧
  positions (set_intersections s ∅) = positions s ∧
  triangles (set_intersections s ∅) = triangles s.
Proof.
  intros Ho. unfold cut.
  change (origin_is_zero (set_intersections s ∅)) with (origin_is_zero s).
  by rewrite Ho.
Qed.

Lemma extends_triangle_rejected s s' t :
  extends s s' → triangle_rejected s t → triangle_rejected s' t.
Proof.
  intros Hext (H0 & H1 & H2).
  split_and!;
    (match goal with H : edge_rejected s ?i ?j |- edge_rejected s' ?i ?j =>
       destruct H as (lambda & El & En); exists lambda; split; [|done];
       by eapply extends_edge_lambda end).
Qed.





(** ** The tolerance interval *)

(** The test of line 199 accepts exactly the finite parameters of the
    closed interval. *)
Lemma no_intersection_false_iff lambda :
  no_intersection lambda = false ↔ in_tolerance lambda.
Proof.
  unfold no_intersection, in_tolerance.
  rewrite !orb_false_iff, negb_false_iff.
  assert (Hp : Prim2SF precision ≠ S754_nan) by (vm_compute; discriminate).
  assert (Hq : Prim2SF (1 - precision)%float ≠ S754_nan)
    by (vm_compute; discriminate).
  split.
  - intros [[Hf Hlo] Hhi]. pose proof (FloatFacts.finite_not_nan _ Hf) as Hl.
    rewrite FloatFacts.ltb_negb_leb in Hlo, Hhi by done.
    apply negb_false_iff in Hlo, Hhi. done.
  - intros (Hf & Hlo & Hhi). pose proof (FloatFacts.finite_not_nan _ Hf) as Hl.
    rewrite !FloatFacts.ltb_negb_leb by done.
    rewrite Hlo, Hhi. done.
Qed.

(** C4, as the code has it.  An edge is treated as crossing exactly when
    its parameter is finite and lies in the closed interval
    [[precision, 1 - precision]], both endpoints included: then
    [get_intersection] answers the split index recorded for the edge,
    appending its vertex if the edge was not cached; otherwise it
    answers [NONE] and changes nothing.  In particular the parameter
    [0.000005] is rejected. *)
Theorem crossing_iff_closed_interval s i j lambda :
  edge_lambda s i j = Some lambda →
  (in_tolerance lambda →
     ∃ s' m, get_intersection s i j = Some (s', m) ∧
             intersections s' !! canonical i j = Some m ∧
             (intersections s !! canonical i j = None →
                length (positions s') = S (length (positions s)))) ∧
  (¬ in_tolerance lambda → get_intersection s i j = Some (s, NONE)) ∧
  (lambda = half_precision → get_intersection s i j = Some (s, NONE)).
Proof.
  intros El. split; [|split].
  - intros Hin%no_intersection_false_iff.
    destruct (get_intersection_defined s i j lambda El) as (s' & m & Hg).
    exists s', m. split; [done|].
    pose proof Hg as Hr%get_intersection_spec. split.
    + by eapply lookup_result_cached.
    + intros Hnone.
      destruct Hr as [l El' En'| l m' El' En' Ef |p q Ep Eq En' Ef];
        [congruence | congruence |].
      simpl. rewrite length_app. simpl. lia.
  - intros Hout. apply get_intersection_rejected. exists lambda.
    split; [done|]. destruct (no_intersection lambda) eqn:En; [done|].
    by apply no_intersection_false_iff in En.
  - intros ->. apply get_intersection_rejected. exists half_precision.
    split; [done|]. by vm_compute.
Qed.

(** C4 fails as stated: the parameter of the edge of [boundary_state] is
    exactly [precision], an endpoint of the interval, not strictly
    above it, and the edge is split. *)
Lemma boundary_lambda_is_split :
  edge_lambda boundary_state 0 1 = Some precision ∧
  (precision <? precision)%float = false ∧
  ∃ s', get_intersection boundary_state 0 1 = Some (s', 2) ∧
        positions s' = [Vec 1 0 0; Vec 0 0 0; Vec precision 0 0].
Proof.
  split; [by vm_compute|]. split; [by vm_compute|].
  eexists. split; [by vm_compute | reflexivity].
Qed.

(** ** The scenario of the specification *)

(** The state in which the cut of the scenario returns. *)
Lemma scenario_run :
  ∃ s', cut 6 scenario = Done s' ∧
    positions s' =
      [Vec 0 0 0; Vec 2 0 0; Vec 0 2 0; Vec 1 1 0; Vec 1 0 0] ∧
    triangles s' = [Tri 0 3 2; Tri 3 4 1; Tri 3 0 4].
Proof. eexists. split; [by vm_compute|]. by vm_compute. Qed.

(** C1, as the code has it.  Cutting the one-triangle mesh by the plane
    [x = 1] returns with five vertices, the two new ones at [(1,1,0)]
    (edge 1-2) and [(1,0,0)] (edge 0-1), and with three triangles: the
    plane crosses two edges, and each crossing adds one triangle. *)
Theorem cut_scenario :
  ∃ s', cut_returns scenario s' ∧
    positions s' =
      [Vec 0 0 0; Vec 2 0 0; Vec 0 2 0; Vec 1 1 0; Vec 1 0 0] ∧
    triangles s' = [Tri 0 3 2; Tri 3 4 1; Tri 3 0 4] ∧
    length (positions s') = 5%nat ∧
    length (triangles s') = 3%nat.
Proof.
  destruct scenario_run as (s' & Hrun & Hp & Ht).
  exists s'. split; [by exists 6%nat|].
  rewrite Hp, Ht. done.
Qed.

(** C1 fails as stated: the cut of the scenario returns with five
    vertices but with three triangles, not two. *)
Lemma cut_scenario_not_two_triangles :
  ¬ (∀ s', cut_returns scenario s' →
       length (positions s') = 5%nat ∧ length (triangles s') = 2%nat).
Proof.
  intros H. destruct scenario_run as (s' & Hrun & _ & Ht).
  destruct (H s') as [_ H2]; [by exists 6%nat|].
  rewrite Ht in H2. discriminate.
Qed.

(** ** The mesh invariant *)

Lemma vertices_fit_extends s s' :
  extends s s' → vertices_fit s' → vertices_fit s.
Proof.
  intros [Hp _ _ _]. unfold vertices_fit. apply prefix_length in Hp. lia.
Qed.

Lemma valid_tri_nth s t n : valid_triangle s t → valid_index s (tri_nth t n).
Proof. intros (H0 & H1 & H2). by destruct n as [|[|n]]. Qed.

Lemma valid_triangle_extends s s' t :
  extends s s' → valid_triangle s t → valid_triangle s' t.
Proof.
  intros Hext (H0 & H1 & H2). split_and!; by eapply extends_valid_index.
Qed.

Lemma valid_mesh_extends s s' :
  extends s s' → triangles s' = triangles s → valid_mesh s → valid_mesh s'.
Proof.
  unfold valid_mesh. intros Hext -> Hv. eapply Forall_impl; [exact Hv|].
  intros t. by apply valid_triangle_extends.
Qed.

Lemma valid_at_index s tid t :
  valid_mesh s → at_index (triangles s) tid = Some t → valid_triangle s t.
Proof.
  intros Hv [_ Ht]%at_index_Some. unfold valid_mesh in Hv.
  rewrite Forall_lookup in Hv. by eapply Hv.
Qed.

Lemma valid_mesh_push s t :
  valid_mesh s → valid_triangle s t → valid_mesh (push_triangle s t).
Proof.
  unfold valid_mesh, push_triangle. simpl. intros Hv Ht.
  apply Forall_app. split; [exact Hv|]. by apply Forall_singleton.
Qed.

Lemma valid_mesh_assign s tid t s' :
  valid_mesh s → valid_triangle s t → assign_triangle s tid t = Some s' →
  valid_mesh s'.
Proof.
  unfold valid_mesh, assign_triangle. intros Hv Ht.
  destruct (at_index (triangles s) tid); simpl; [|discriminate].
  intros [= <-]. simpl. by apply Forall_insert.
Qed.

(** The vertex append of [get_intersection] keeps the triangles and the
    cache valid, and the index it answers is valid. *)
Lemma lookup_result_valid s i j s' m :
  lookup_result s i j s' m →
  valid_mesh s → valid_cache s → vertices_fit s' →
  valid_mesh s' ∧ valid_cache s' ∧ (m ≠ NONE → valid_index s' m).
Proof.
  intros Hr Hv Hc Hfit.
  pose proof (lookup_result_frame _ _ _ _ _ Hr) as [Hext Htri].
  split; [by eapply valid_mesh_extends|].
  destruct Hr as [l El En| l m El En Ef |p q Ep Eq En Ef].
  - done.
  - split; [done|]. intros _. by eapply Hc.
  - unfold vertices_fit in Hfit. simpl in Hfit.
    rewrite length_app in Hfit. simpl in Hfit.
    rewrite of_size_small in * by (unfold Int.max_signed; lia).
    assert (Hnew : valid_index
      (MkSlicer (positions s ++ [interpolate (get_lambda s p q) p q])
         (triangles s) (origin s) (normal s)
         (<[canonical i j := Z.of_nat (length (positions s))]> (intersections s)))
      (Z.of_nat (length (positions s)))).
    { unfold valid_index. simpl. rewrite length_app. simpl. lia. }
    split; [|done].
    intros key m'. simpl. intros [[_ <-]|[_ Hold]]%lookup_insert_Some; [done|].
    eapply extends_valid_index; [exact Hext|]. by eapply Hc.
Qed.

Lemma assign_triangle_Some s tid t s' :
  assign_triangle s tid t = Some s' →
  s' = set_triangles s (<[Z.to_nat tid := t]> (triangles s)).
Proof.
  unfold assign_triangle.
  destruct (at_index (triangles s) tid); simpl; [|discriminate].
  by intros [= <-].
Qed.

Lemma do_triangle_from_S s tid n todo :
  do_triangle_from s tid n (S todo) =
  (t ← at_index (triangles s) tid;
   '(s1, m) ← get_intersection s (tri_nth t ((n + 1) mod 3))
                                 (tri_nth t ((n + 2) mod 3));
   if (m =? NONE)%Z then do_triangle_from s1 tid (S n) todo
   else
     s2 ← assign_triangle
            (push_triangle s1 (Tri (tri_nth t n) (tri_nth t ((n + 1) mod 3)) m))
            tid (Tri (tri_nth t n) m (tri_nth t ((n + 2) mod 3)));
     Some (s2, true)).
Proof. reflexivity. Qed.

(** The append and the rewrite of [do_triangle] keep the triangles
    valid, in the state between the two as well. *)
Lemma do_triangle_from_valid s tid n todo s' b :
  do_triangle_from s tid n todo = Some (s', b) →
  valid_mesh s → valid_cache s → vertices_fit s' →
  valid_mesh s' ∧ valid_cache s' ∧
  (b = true →
     ∃ s1 added kept,
       extends s s1 ∧ triangles s1 = triangles s ∧
       valid_mesh s1 ∧
       valid_mesh (push_triangle s1 added) ∧
       assign_triangle (push_triangle s1 added) tid kept = Some s').
Proof.
  revert s n. induction todo as [|todo IH]; intros s n.
  { simpl. intros [= <- <-]. done. }
  rewrite do_triangle_from_S.
  destruct (at_index (triangles s) tid) as [t|] eqn:Et; cbn -[Nat.modulo]; [|discriminate].
  destruct (get_intersection s _ _) as [[s1 m]|] eqn:Eg; cbn -[Nat.modulo]; [|discriminate].
  intros Hd Hv Hc Hfit.
  pose proof Eg as Hr%get_intersection_spec.
  pose proof (lookup_result_frame _ _ _ _ _ Hr) as [Hext Htri].
  set (added := Tri (tri_nth t n) (tri_nth t ((n + 1) mod 3)) m) in *.
  set (kept := Tri (tri_nth t n) m (tri_nth t ((n + 2) mod 3))) in *.
  assert (Hext1 : extends s1 s').
  { destruct (m =? NONE).
    - by apply do_triangle_from_frame in Hd as [? _].
    - destruct (assign_triangle (push_triangle s1 added) tid kept)
        as [s2|] eqn:Ea; simpl in Hd; [|discriminate].
      injection Hd as <- <-. apply assign_triangle_Some in Ea as ->.
      by split. }
  destruct (lookup_result_valid _ _ _ _ _ Hr Hv Hc) as (Hv1 & Hc1 & Hm1).
  { by eapply vertices_fit_extends. }
  destruct (m =? NONE) eqn:Em.
  - destruct (IH _ _ Hd Hv1 Hc1 Hfit) as (Hv' & Hc' & Hb).
    split; [done|]. split; [done|]. intros ->.
    destruct (Hb eq_refl) as (s2 & added' & kept' & Hext2 & Htri2 & Hrest).
    exists s2, added', kept'. split; [by etrans|]. split; [congruence | done].
  - apply Z.eqb_neq in Em.
    pose proof (valid_triangle_extends _ _ _ Hext (valid_at_index _ _ _ Hv Et)) as Ht.
    destruct (assign_triangle (push_triangle s1 added) tid kept)
      as [s2|] eqn:Ea; simpl in Hd; [|discriminate].
    injection Hd as <- <-.
    assert (Hadded : valid_triangle s1 added).
    { split_and!; simpl; auto using valid_tri_nth. }
    assert (Hkept : valid_triangle (push_triangle s1 added) kept).
    { split_and!; simpl; auto using valid_tri_nth. }
    pose proof (valid_mesh_push _ _ Hv1 Hadded) as Hvp.
    split; [by eapply valid_mesh_assign|]. split.
    + by apply assign_triangle_Some in Ea as ->.
    + intros _. exists s1, added, kept. done.
Qed.

Lemma cut_calls_valid s s' :
  cut_calls s s' →
  valid_mesh s → valid_cache s → vertices_fit s' →
  valid_mesh s' ∧ valid_cache s'.
Proof.
  induction 1 as [s|s s1 s2 i j m Hg Hcalls IH|s s1 s2 tid b Hd Hcalls IH];
    intros Hv Hc Hfit; [done| |].
  - apply get_intersection_spec in Hg.
    destruct (lookup_result_valid _ _ _ _ _ Hg Hv Hc) as (Hv1 & Hc1 & _).
    { eapply vertices_fit_extends; [|exact Hfit]. by apply cut_calls_extends. }
    by apply IH.
  - destruct (do_triangle_from_valid _ _ _ _ _ _ Hd Hv Hc) as (Hv1 & Hc1 & _).
    { eapply vertices_fit_extends; [|exact Hfit]. by apply cut_calls_extends. }
    by apply IH.
Qed.

(** The loop of [cut] is a sequence of [do_triangle] calls. *)
Lemma cut_state_calls n s c : cut_calls s (cut_state n s c).1.
Proof.
  revert s c. induction n as [|n IH]; intros s c; simpl; [constructor|].
  destruct (decide (c < length (triangles s))%nat); [|constructor].
  destruct (do_triangle s (Int.of_size c)) as [[s1 b]|] eqn:Hd; [|constructor].
  eapply calls_triangle; [exact Hd|]. apply IH.
Qed.

Lemma cut_loop_calls fuel s c s' :
  cut_loop fuel s c = Done s' → cut_calls s s'.
Proof.
  revert s c. induction fuel as [|fuel IH]; intros s c; simpl.
  - destruct (decide (c < length (triangles s))%nat); [discriminate|].
    intros [= <-]. constructor.
  - destruct (decide (c < length (triangles s))%nat);
      [|intros [= <-]; constructor].
    destruct (do_triangle s (Int.of_size c)) as [[s1 b]|] eqn:Hd; [|discriminate].
    intros H. eapply calls_triangle; [exact Hd|]. by eapply IH.
Qed.

(** C8. Let every triangle of the mesh have valid indices when [cut]
    begins.  Then in every state [s] that the calls of the cut can
    reach (as long as its vertex indices fit in [int]) every triangle
    has valid indices and every cached split index is valid, and each
    mutation made from [s] keeps it so: the vertex append of
    [get_intersection], the triangle append of [do_triangle] (in the
    state between the append and the rewrite), and the rewrite of slot
    [tid].  In particular the mesh is valid at every loop head and
    when [cut] returns. *)
Theorem mutations_preserve_valid_mesh s0 :
  valid_mesh s0 →
  (∀ s, cut_calls (set_intersections s0 ∅) s → vertices_fit s →
     valid_mesh s ∧ valid_cache s ∧
     (∀ i j s1 m, get_intersection s i j = Some (s1, m) → vertices_fit s1 →
        valid_mesh s1 ∧ valid_cache s1 ∧ (m ≠ NONE → valid_index s1 m)) ∧
     (∀ tid s3, do_triangle s tid = Some (s3, true) → vertices_fit s3 →
        ∃ s1 added kept,
          extends s s1 ∧ triangles s1 = triangles s ∧
          valid_mesh (push_triangle s1 added) ∧
          assign_triangle (push_triangle s1 added) tid kept = Some s3 ∧
          valid_mesh s3 ∧ valid_cache s3)) ∧
  (∀ n, vertices_fit (cut_state n (set_intersections s0 ∅) 0).1 →
     valid_mesh (cut_state n (set_intersections s0 ∅) 0).1) ∧
  (∀ fuel s', cut fuel s0 = Done s' → vertices_fit s' → valid_mesh s').
Proof.
  intros Hv0.
  assert (Hc0 : valid_cache (set_intersections s0 ∅)).
  { intros key m. simpl. by rewrite lookup_empty. }
  assert (Hv0' : valid_mesh (set_intersections s0 ∅)) by exact Hv0.
  split; [|split].
  - intros s Hcalls Hfit.
    destruct (cut_calls_valid _ _ Hcalls Hv0' Hc0 Hfit) as [Hv Hc].
    split; [done|]. split; [done|]. split.
    + intros i j s1 m Hg Hfit1. apply get_intersection_spec in Hg.
      by eapply lookup_result_valid.
    + intros tid s3 Hd Hfit3.
      destruct (do_triangle_from_valid _ _ _ _ _ _ Hd Hv Hc Hfit3)
        as (Hv3 & Hc3 & Hb).
      destruct (Hb eq_refl) as (s1 & added & kept & ? & ? & ? & ? & ?).
      exists s1, added, kept. done.
  - intros n Hfit.
    by destruct (cut_calls_valid _ _ (cut_state_calls n _ 0) Hv0' Hc0 Hfit).
  - intros fuel s'. unfold cut.
    destruct (origin_is_zero _); [by intros [= <-]|].
    intros Hcalls%cut_loop_calls Hfit.
    by destruct (cut_calls_valid _ _ Hcalls Hv0' Hc0 Hfit).
Qed.

(** ** Termination of the loop *)

Lemma get_lambda_offset s p q :
  ∃ den, get_lambda s p q = (plane_offset s q / den)%float.
Proof. eexists. reflexivity. Qed.

(** An edge whose second end point evaluates as a point of the plane has
    parameter [0] or NaN, and is rejected. *)
Lemma on_plane_rejected s p q :
  on_plane s q = true → no_intersection (get_lambda s p q) = true.
Proof.
  intros Hq. destruct (get_lambda_offset s p q) as [den ->].
  pose proof (FloatFacts.div_zero_l _ den Hq) as Hz.
  unfold zero_or_nan in Hz.
  destruct (Prim2SF (plane_offset s q / den)) as [sg|sg| |sg m e] eqn:E;
    try done.
  - unfold no_intersection.
    assert ((plane_offset s q / den <? precision)%float = true) as ->.
    { rewrite FloatAxioms.ltb_spec, E. by destruct sg; vm_compute. }
    by rewrite orb_true_r.
  - by apply nan_no_intersection.
Qed.

Lemma weight_le_3 v0 t : (weight v0 t ≤ 3)%nat.
Proof.
  unfold weight.
  destruct (original v0 (t0 t)), (original v0 (t1 t)), (original v0 (t2 t));
    simpl; lia.
Qed.

Lemma total_weight_le v0 ts : (total_weight v0 ts ≤ 3 * length ts)%nat.
Proof.
  unfold total_weight. induction ts as [|t ts IH]; simpl; [lia|].
  pose proof (weight_le_3 v0 t). lia.
Qed.

Lemma total_weight_app v0 ts ts' :
  total_weight v0 (ts ++ ts') = (total_weight v0 ts + total_weight v0 ts')%nat.
Proof. apply sum_list_with_app. Qed.

Lemma total_weight_insert v0 ts (i : nat) t t' :
  ts !! i = Some t →
  (total_weight v0 (<[i := t']> ts) + weight v0 t
   = total_weight v0 ts + weight v0 t')%nat.
Proof.
  intros Hi. pose proof (lookup_lt_Some _ _ _ Hi) as Hlt.
  rewrite insert_take_drop by done.
  rewrite <- (take_drop_middle ts i t Hi) at 3.
  rewrite !total_weight_app. unfold total_weight. simpl. lia.
Qed.

(** Splitting on an edge between two original vertices at a vertex
    created by the cut uses up one unit of weight. *)
Lemma weight_split v0 t n m :
  (n < 3)%nat →
  original v0 (tri_nth t ((n + 1) mod 3)) = true →
  original v0 (tri_nth t ((n + 2) mod 3)) = true →
  original v0 m = false →
  weight v0 t =
  (1 + weight v0 (Tri (tri_nth t n) m (tri_nth t ((n + 2) mod 3)))
     + weight v0 (Tri (tri_nth t n) (tri_nth t ((n + 1) mod 3)) m))%nat.
Proof.
  intros Hn Hj Hk Hm. unfold weight. simpl.
  destruct n as [|[|[|n]]]; [| | |lia]; simpl in *;
    rewrite Hm; rewrite ?Hj, ?Hk;
    destruct (original v0 (t0 t)), (original v0 (t1 t)), (original v0 (t2 t));
    simpl in *; try discriminate; reflexivity.
Qed.

(** A visit of a valid triangle either finds its three edges rejected, or
    splits on the first edge that passes the test. *)
Lemma do_triangle_cases s tid t :
  valid_mesh s → valid_cache s →
  Z.of_nat (length (positions s)) ≤ Int.max_signed →
  at_index (triangles s) tid = Some t →
  (triangle_rejected s t ∧ do_triangle s tid = Some (s, false))
  ∨ (∃ n s1 m lambda,
       (n < 3)%nat ∧
       edge_lambda s (tri_nth t ((n + 1) mod 3)) (tri_nth t ((n + 2) mod 3))
       = Some lambda ∧
       no_intersection lambda = false ∧
       lookup_result s (tri_nth t ((n + 1) mod 3)) (tri_nth t ((n + 2) mod 3)) s1 m ∧
       do_triangle s tid =
       Some (set_triangles s1
               (<[Z.to_nat tid := Tri (tri_nth t n) m (tri_nth t ((n + 2) mod 3))]>
                  (triangles s ++ [Tri (tri_nth t n) (tri_nth t ((n + 1) mod 3)) m])),
             true)).
Proof.
  intros Hv Hc Hsz Et.
  pose proof (valid_at_index _ _ _ Hv Et) as Ht.
  assert (Hedge : ∀ n, (n < 3)%nat →
    edge_rejected s (tri_nth t ((n + 1) mod 3)) (tri_nth t ((n + 2) mod 3))
    ∨ ∃ s1 m lambda,
        edge_lambda s (tri_nth t ((n + 1) mod 3)) (tri_nth t ((n + 2) mod 3))
        = Some lambda ∧
        no_intersection lambda = false ∧ m ≠ NONE ∧
        get_intersection s (tri_nth t ((n + 1) mod 3)) (tri_nth t ((n + 2) mod 3))
        = Some (s1, m)).
  { intros n _.
    destruct (get_intersection_total s (tri_nth t ((n + 1) mod 3))
                (tri_nth t ((n + 2) mod 3)))
      as (s1 & m & lambda & Hg & El & [(En & _ & _)|(En & _ & Hm & _)]);
      auto using valid_tri_nth.
    - left. by exists lambda.
    - right. by exists s1, m, lambda. }
  assert (Hyes : ∀ n s1 m lambda, (n < 3)%nat →
    (∀ n', (n' < n)%nat →
       edge_rejected s (tri_nth t ((n' + 1) mod 3)) (tri_nth t ((n' + 2) mod 3))) →
    edge_lambda s (tri_nth t ((n + 1) mod 3)) (tri_nth t ((n + 2) mod 3))
    = Some lambda →
    no_intersection lambda = false → m ≠ NONE →
    get_intersection s (tri_nth t ((n + 1) mod 3)) (tri_nth t ((n + 2) mod 3))
    = Some (s1, m) →
    ∃ n s1 m lambda,
       (n < 3)%nat ∧
       edge_lambda s (tri_nth t ((n + 1) mod 3)) (tri_nth t ((n + 2) mod 3))
       = Some lambda ∧
       no_intersection lambda = false ∧
       lookup_result s (tri_nth t ((n + 1) mod 3)) (tri_nth t ((n + 2) mod 3)) s1 m ∧
       do_triangle s tid =
       Some (set_triangles s1
               (<[Z.to_nat tid := Tri (tri_nth t n) m (tri_nth t ((n + 2) mod 3))]>
                  (triangles s ++ [Tri (tri_nth t n) (tri_nth t ((n + 1) mod 3)) m])),
             true)).
  { intros n s1 m lambda Hn Hbefore El En Hm Hg.
    exists n, s1, m, lambda. split_and!; try done.
    - by apply get_intersection_spec.
    - apply do_triangle_split_at; try done.
      intros n' Hn'. apply get_intersection_rejected. by apply Hbefore. }
  destruct (Hedge 0%nat ltac:(lia)) as [R0|(s1 & m & lambda & El & En & Hm & Hg)].
  2: { right. eapply (Hyes 0%nat); eauto. lia. }
  destruct (Hedge 1%nat ltac:(lia)) as [R1|(s1 & m & lambda & El & En & Hm & Hg)].
  2: { right. eapply (Hyes 1%nat); eauto.
       intros n' Hn'. by replace n' with 0%nat by lia. }
  destruct (Hedge 2%nat ltac:(lia)) as [R2|(s1 & m & lambda & El & En & Hm & Hg)].
  2: { right. eapply (Hyes 2%nat); eauto.
       intros n' Hn'. destruct n' as [|[|n']]; [done | done | lia]. }
  left. assert (Hr : triangle_rejected s t) by done.
  split; [done|]. by eapply do_triangle_rejected.
Qed.

(** When the vertices created by the cut evaluate as points of the
    plane, an edge that passes the test joins two original vertices. *)
Lemma on_plane_edge_original v0 s i j lambda :
  splits_on_plane v0 s = true →
  edge_lambda s i j = Some lambda → no_intersection lambda = false →
  original v0 i = true ∧ original v0 j = true.
Proof.
  intros Hon (p & q & Ep & Eq & ->)%edge_lambda_Some En.
  pose proof (canonical_le i j) as Hle.
  assert (Hb : (canonical i j).2 < Z.of_nat v0).
  { destruct (Z.lt_ge_cases (canonical i j).2 (Z.of_nat v0)) as [|Hge]; [done|].
    exfalso. apply at_index_Some in Eq as [_ Eq].
    unfold splits_on_plane in Hon. rewrite forallb_forall in Hon.
    rewrite (on_plane_rejected s p q) in En; [discriminate|].
    apply Hon. apply list_elem_of_In, list_elem_of_lookup.
    exists (Z.to_nat (canonical i j).2 - v0)%nat.
    rewrite lookup_drop. rewrite <- Eq. f_equal. lia. }
  unfold original.
  destruct (canonical_cases i j) as [E|E]; rewrite E in Hb, Hle; simpl in *;
    split; apply Z.ltb_lt; lia.
Qed.

Lemma rejects_false s i j lambda :
  edge_lambda s i j = Some lambda → no_intersection lambda = false →
  rejects s i j = false.
Proof. unfold rejects. by intros -> ->. Qed.

(** Exact split vertices settle every edge that touches them. *)
Lemma on_plane_settled v0 s :
  valid_mesh s → splits_on_plane v0 s = true → splits_settled v0 s = true.
Proof.
  intros Hv Hon. unfold splits_settled. apply forallb_forall.
  intros t Ht%list_elem_of_In.
  unfold valid_mesh in Hv. rewrite Forall_forall in Hv.
  destruct (Hv t Ht) as (H0 & H1 & H2).
  assert (Hedge : ∀ i j, valid_index s i → valid_index s j →
                         edge_settled v0 s i j = true).
  { intros i j Hi Hj. destruct (valid_edge_lambda s i j Hi Hj) as [lambda El].
    unfold edge_settled, rejects. rewrite El.
    destruct (no_intersection lambda) eqn:En; [by rewrite orb_true_r|].
    destruct (on_plane_edge_original v0 s i j lambda Hon El En) as [-> ->].
    done. }
  rewrite !Hedge; done.
Qed.

(** In a settled state, an edge of a triangle that passes the test
    joins two original vertices. *)
Lemma accepted_edge_original v0 s t n lambda :
  splits_settled v0 s = true → t ∈ triangles s → (n < 3)%nat →
  edge_lambda s (tri_nth t ((n + 1) mod 3)) (tri_nth t ((n + 2) mod 3))
  = Some lambda →
  no_intersection lambda = false →
  original v0 (tri_nth t ((n + 1) mod 3)) = true ∧
  original v0 (tri_nth t ((n + 2) mod 3)) = true.
Proof.
  intros Hs Ht%list_elem_of_In Hn El En.
  unfold splits_settled in Hs. rewrite forallb_forall in Hs.
  apply Hs in Ht. apply andb_prop in Ht as [[E0 E1]%andb_prop E2].
  pose proof (rejects_false _ _ _ _ El En) as Hr.
  assert (Hpick : edge_settled v0 s (tri_nth t ((n + 1) mod 3))
                    (tri_nth t ((n + 2) mod 3)) = true).
  { destruct n as [|[|[|n]]]; [done | done | done | lia]. }
  unfold edge_settled in Hpick. rewrite Hr, orb_false_r in Hpick.
  by apply andb_prop in Hpick.
Qed.

(** The index answered for an edge that passes the test was created by
    this cut, and the call appends at most one vertex. *)
Lemma lookup_result_fresh v0 s i j s' m lambda :
  lookup_result s i j s' m →
  edge_lambda s i j = Some lambda → no_intersection lambda = false →
  fresh_cache v0 s → (v0 ≤ length (positions s))%nat →
  Z.of_nat (length (positions s)) ≤ Int.max_signed →
  fresh_cache v0 s' ∧ Z.of_nat v0 ≤ m ∧
  (length (positions s') ≤ S (length (positions s)))%nat.
Proof.
  intros Hr El En Hf Hv0 Hsz.
  destruct Hr as [l El' En'| l m El' En' Ef |p q Ep Eq En' Ef].
  - congruence.
  - split; [done|]. split; [by eapply Hf | lia].
  - rewrite of_size_small by done. split; [|split].
    + intros key m'. simpl. intros [[_ <-]|[_ Hold]]%lookup_insert_Some; [lia|].
      by eapply Hf.
    + lia.
    + simpl. rewrite length_app. simpl. lia.
Qed.

(** A splitting visit in a settled state: the invariants survive, the triangle sequence grows by
    one, the vertex sequence by at most one, and one unit of weight is
    used up. *)
Lemma split_step v0 s tid s' :
  valid_mesh s → valid_cache s → fresh_cache v0 s →
  (v0 ≤ length (positions s))%nat →
  Z.of_nat (length (positions s)) ≤ Int.max_signed →
  splits_settled v0 s = true →
  do_triangle s tid = Some (s', true) →
  valid_mesh s' ∧ valid_cache s' ∧ fresh_cache v0 s' ∧
  length (triangles s') = S (length (triangles s)) ∧
  (length (positions s) ≤ length (positions s') ≤ S (length (positions s)))%nat ∧
  (total_weight v0 (triangles s') + 1 = total_weight v0 (triangles s))%nat.
Proof.
  intros Hv Hc Hf Hv0 Hsz Hon Hd.
  pose proof Hd as [Hext [Htid _]]%do_triangle_frame.
  destruct (at_index_is_Some (triangles s) tid Htid) as [t Et].
  destruct (do_triangle_cases s tid t Hv Hc Hsz Et)
    as [[_ Hno]|(n & s1 & m & lambda & Hn & El & En & Hr & Hyes)];
    [congruence|].
  rewrite Hyes in Hd. injection Hd as <-.
  destruct (lookup_result_fresh v0 _ _ _ _ _ _ Hr El En Hf Hv0 Hsz)
    as (Hf1 & Hm & Hlen).
  pose proof (lookup_result_frame _ _ _ _ _ Hr) as [Hext1 Htri1].
  destruct (accepted_edge_original v0 s t n lambda Hon) as [Hj Hk]; try done.
  { apply at_index_Some in Et as [_ Et]. by eapply list_elem_of_lookup_2. }
  assert (Hfit : vertices_fit
    (set_triangles s1
       (<[Z.to_nat tid := Tri (tri_nth t n) m (tri_nth t ((n + 2) mod 3))]>
          (triangles s ++ [Tri (tri_nth t n) (tri_nth t ((n + 1) mod 3)) m])))).
  { unfold vertices_fit, Int.max_signed in *. simpl. lia. }
  destruct (do_triangle_from_valid _ _ _ _ _ _ Hyes Hv Hc Hfit) as (Hv' & Hc' & _).
  split; [done|]. split; [done|]. split; [done|]. simpl.
  apply at_index_Some in Et as [_ Et].
  split; [|split].
  - rewrite length_insert, length_app. simpl. lia.
  - split; [|done]. destruct Hext1 as [Hp _ _ _]. by apply prefix_length.
  - pose proof (total_weight_insert v0
      (triangles s ++ [Tri (tri_nth t n) (tri_nth t ((n + 1) mod 3)) m])
      (Z.to_nat tid) t
      (Tri (tri_nth t n) m (tri_nth t ((n + 2) mod 3)))) as Hins.
    rewrite total_weight_app in Hins.
    rewrite (weight_split v0 t n m Hn Hj Hk) in Hins.
    2: { unfold original. apply Z.ltb_ge. lia. }
    unfold total_weight at 3 in Hins. simpl in Hins.
    rewrite lookup_app_l in Hins by (by eapply lookup_lt_Some).
    specialize (Hins Et). lia.
Qed.

Lemma cut_state_S n s c s' b :
  (c < length (triangles s))%nat →
  do_triangle s (Int.of_size c) = Some (s', b) →
  cut_state (S n) s c = cut_state n s' (if b then c else S c).
Proof. intros Hc Hd. simpl. rewrite decide_True by done. by rewrite Hd. Qed.

(** The loop ends within [2 W + (T - c)] iterations, where [W] is the
    total weight of the triangles and [T - c] the number of slots still
    to visit: a splitting visit uses up one unit of weight and adds one
    slot, any other visit moves the cursor. *)
Lemma cut_loop_terminates v0 fuel :
  ∀ s c,
    valid_mesh s → valid_cache s → fresh_cache v0 s →
    (v0 ≤ length (positions s))%nat →
    Z.of_nat (length (positions s) + total_weight v0 (triangles s))
      ≤ Int.max_signed →
    Z.of_nat (length (triangles s) + total_weight v0 (triangles s)) ≤ 2 ^ 31 →
    (∀ n, splits_settled v0 (cut_state n s c).1 = true) →
    (2 * total_weight v0 (triangles s) + (length (triangles s) - c) ≤ fuel)%nat →
    ∃ s', cut_loop fuel s c = Done s' ∧
      (length (triangles s')
       ≤ length (triangles s) + total_weight v0 (triangles s))%nat ∧
      (length (positions s')
       ≤ length (positions s) + total_weight v0 (triangles s))%nat.
Proof.
  induction fuel as [|fuel IH]; intros s c Hv Hc Hf Hv0 Hps Hts Hon Hfuel.
  - exists s. split; [apply cut_loop_end; lia | lia].
  - destruct (decide (c < length (triangles s))%nat) as [Hlt|Hge].
    2: { exists s. split; [by apply cut_loop_end | lia]. }
    assert (Hsz : Z.of_nat (length (positions s)) ≤ Int.max_signed) by lia.
    assert (Hc' : Int.of_size c = Z.of_nat c).
    { apply of_size_small. unfold Int.max_signed. lia. }
    destruct (lookup_lt_is_Some_2 (triangles s) c Hlt) as [t Ht].
    assert (Et : at_index (triangles s) (Z.of_nat c) = Some t)
      by by rewrite at_index_of_nat.
    pose proof (Hon 0%nat) as Hon0. simpl in Hon0.
    destruct (do_triangle_cases s (Z.of_nat c) t Hv Hc Hsz Et)
      as [[_ Hno]|(n & s1 & m & lambda & _ & _ & _ & _ & Hyes)].
    + rewrite <- Hc' in Hno.
      rewrite (cut_loop_advance fuel s c s Hlt Hno).
      destruct (IH s (S c)) as (s' & Hrun & Hbound); try done.
      * intros k. by rewrite <- (cut_state_S k s c s false Hlt Hno).
      * lia.
      * exists s'. done.
    + rewrite <- Hc' in Hyes.
      destruct (split_step v0 s _ _ Hv Hc Hf Hv0 Hsz Hon0 Hyes)
        as (Hv1 & Hc1 & Hf1 & Hlen & Hpos & Hw).
      rewrite (cut_loop_split fuel s c _ Hlt Hyes).
      match type of Hyes with _ = Some (?x, true) => set (s2 := x) in * end.
      destruct (IH s2 c) as (s' & Hrun & Hbt & Hbp); try done; try lia.
      * intros k. by rewrite <- (cut_state_S k s c s2 true Hlt Hyes).
      * exists s'. split; [done|]. lia.
Qed.

(** Termination under a premise on the run.  On a mesh with valid
    triangle indices (and sizes that leave room in [int]), if in every
    state of the run every triangle edge with an end point created by
    the cut is rejected (as it is when the created vertices evaluate as
    points of the plane, [on_plane_settled]) then [cut] returns within
    [7 T] loop iterations, having added at most [3 T] triangles and at
    most [3 T] vertices, where [T] is the original triangle count.
    The code does not establish the premise: see
    [cut_runs_without_end]. *)
Lemma cut_terminates_when_splits_settled s0 fuel :
  valid_mesh s0 →
  Z.of_nat (length (positions s0) + 3 * length (triangles s0)) ≤ Int.max_signed →
  Z.of_nat (4 * length (triangles s0)) ≤ 2 ^ 31 →
  (∀ n, splits_settled (length (positions s0))
          (cut_state n (set_intersections s0 ∅) 0).1 = true) →
  (7 * length (triangles s0) ≤ fuel)%nat →
  ∃ s', cut fuel s0 = Done s' ∧
    (length (triangles s') - length (triangles s0)
     ≤ 3 * length (triangles s0))%nat ∧
    (length (positions s') - length (positions s0)
     ≤ 3 * length (triangles s0))%nat.
Proof.
  intros Hv Hps Hts Hon Hfuel. unfold cut.
  destruct (origin_is_zero _).
  { eexists. split; [done|]. simpl. lia. }
  pose proof (total_weight_le (length (positions s0)) (triangles s0)) as Hw.
  destruct (cut_loop_terminates (length (positions s0)) fuel
              (set_intersections s0 ∅) 0) as (s' & Hrun & Hbt & Hbp);
    simpl; try done; try lia.
  exists s'. split; [done|]. simpl in *. lia.
Qed.

(** ** Determinism *)

Lemma cut_fuel_mono fuel fuel' s s' :
  cut fuel s = Done s' → (fuel ≤ fuel')%nat → cut fuel' s = Done s'.
Proof.
  unfold cut. destruct (origin_is_zero _); [done|]. apply cut_loop_fuel_mono.
Qed.

Lemma cut_returns_unique s s1 s2 :
  cut_returns s s1 → cut_returns s s2 → s1 = s2.
Proof.
  intros [f1 H1] [f2 H2].
  apply (cut_fuel_mono _ (f1 `max` f2)%nat) in H1; [|lia].
  apply (cut_fuel_mono _ (f1 `max` f2)%nat) in H2; [|lia].
  congruence.
Qed.

(** ** A run that never returns *)

Lemma looping_inv_0 : looping_inv 0 (set_intersections looping ∅).
Proof. by split. Qed.

Lemma get_lambda_looping s p q :
  origin s = origin looping → normal s = normal looping →
  get_lambda s p q = get_lambda looping p q.
Proof. apply get_lambda_plane. Qed.

Lemma looping_position s n (k : nat) :
  looping_inv n s → (k ≤ n)%nat →
  at_index (positions s) (Z.of_nat k + 2) = Some looping_q.
Proof.
  intros [_ _ Hp _ _ _] Hk. apply at_index_Some. split; [lia|].
  rewrite Hp. replace (Z.to_nat (Z.of_nat k + 2)) with (S (S k)) by lia.
  change (replicate (S n) looping_q !! k = Some looping_q).
  apply lookup_replicate_2. lia.
Qed.

(** The arithmetic of [looping].  For the edge from [looping_p] to
    [looping_q] the numerator is [2^-53], the denominator [2^-52] and
    the parameter [0.5]; the mid point [1 + 2^-53] of the two adjacent
    doubles rounds (ties to even) to [1], so the split vertex is
    [looping_q] again.  Edges from [looping_q] to itself or to the apex
    have a zero denominator and are rejected. *)
Lemma looping_arithmetic :
  get_lambda looping looping_p looping_q = 0.5%float ∧
  interpolate 0.5 looping_p looping_q = looping_q ∧
  get_lambda looping looping_q looping_q = infinity ∧
  get_lambda looping looping_apex looping_q = infinity.
Proof. by vm_compute. Qed.

(** The visit of slot [n]: the edge [(1, n+2)] has parameter [0.5], is
    not cached, and its split vertex rounds to the position of vertex
    [n+2]. *)
Lemma looping_visit s n :
  looping_inv n s → Z.of_nat n + 3 ≤ 2 ^ 31 →
  do_triangle s (Int.of_size n) =
  Some (MkSlicer (positions s ++ [looping_q])
          (<[n := Tri 0 (Int.of_size (n + 3)) (Z.of_nat n + 2)]>
             (triangles s ++ [Tri 0 1 (Int.of_size (n + 3))]))
          (origin s) (normal s)
          (<[(1, Z.of_nat n + 2) := Int.of_size (n + 3)]> (intersections s)),
        true).
Proof.
  intros Hinv Hn. pose proof Hinv as [Ho Hnm Hp Hlen Hlast Hcache].
  rewrite of_size_small by (unfold Int.max_signed; lia).
  assert (Ec : canonical 1 (Z.of_nat n + 2) = (1, Z.of_nat n + 2)).
  { unfold canonical. destruct (1 >? Z.of_nat n + 2) eqn:E; [|done].
    apply Z.gtb_lt in E. lia. }
  assert (E1 : at_index (positions s) 1 = Some looping_p) by by rewrite Hp.
  pose proof (looping_position s n n Hinv ltac:(lia)) as E2.
  assert (Hlen3 : length (positions s) = (n + 3)%nat).
  { rewrite Hp. simpl. rewrite length_replicate. lia. }
  assert (Hl : get_lambda s looping_p looping_q = 0.5%float).
  { rewrite get_lambda_looping by done. by vm_compute. }
  assert (Hg : get_intersection s 1 (Z.of_nat n + 2) =
    Some (MkSlicer (positions s ++ [looping_q]) (triangles s) (origin s) (normal s)
            (<[(1, Z.of_nat n + 2) := Int.of_size (n + 3)]> (intersections s)),
          Int.of_size (n + 3))).
  { apply get_intersection_spec.
    pose proof (lookup_fresh s 1 (Z.of_nat n + 2) looping_p looping_q) as Hf.
    rewrite Ec, Hl, Hlen3 in Hf. simpl in Hf.
    replace (interpolate 0.5 looping_p looping_q) with looping_q in Hf
      by by vm_compute.
    apply Hf; try done.
    destruct (intersections s !! (1, Z.of_nat n + 2)) as [m|] eqn:E; [|done].
    apply Hcache in E. lia. }
  assert (Hm : Int.of_size (n + 3) ≠ NONE).
  { destruct (decide (Z.of_nat n + 3 = 2 ^ 31)) as [E|E].
    - unfold Int.of_size. replace (Z.of_nat (n + 3)) with (2 ^ 31) by lia.
      by vm_compute.
    - rewrite of_size_small by (unfold Int.max_signed; lia). unfold NONE. lia. }
  erewrite (do_triangle_split_at s (Z.of_nat n) (Tri 0 1 (Z.of_nat n + 2)) 0);
    [ | by rewrite at_index_of_nat | lia | intros; lia | exact Hg | exact Hm].
  simpl. by rewrite Nat2Z.id.
Qed.

(** The second visit of slot [n], while vertex indices still fit: the
    three edges of the rewritten triangle are rejected, and the cursor
    moves to a slot of the same shape. *)
Lemma looping_revisit s n :
  looping_inv n s → Z.of_nat n + 3 ≤ Int.max_signed →
  let s2 := MkSlicer (positions s ++ [looping_q])
          (<[n := Tri 0 (Int.of_size (n + 3)) (Z.of_nat n + 2)]>
             (triangles s ++ [Tri 0 1 (Int.of_size (n + 3))]))
          (origin s) (normal s)
          (<[(1, Z.of_nat n + 2) := Int.of_size (n + 3)]> (intersections s)) in
  do_triangle s2 (Int.of_size n) = Some (s2, false) ∧ looping_inv (S n) s2.
Proof.
  intros Hinv Hn s2. pose proof Hinv as [Ho Hnm Hp Hlen Hlast Hcache].
  unfold Int.max_signed in Hn.
  assert (Hinv2 : looping_inv (S n) s2).
  { subst s2. rewrite of_size_small by (unfold Int.max_signed; lia).
    split; simpl; try done.
    - rewrite Hp. simpl. by rewrite <- replicate_S_end.
    - rewrite length_insert, length_app. simpl. lia.
    - rewrite list_lookup_insert_ne by lia.
      rewrite lookup_app_r by lia. rewrite Hlen, Nat.sub_diag. simpl.
      do 2 f_equal. lia.
    - intros a b m [[[= <- <-] _]|[_ Hold]]%lookup_insert_Some; [lia|].
      apply Hcache in Hold. lia. }
  split; [|done].
  rewrite of_size_small by (unfold Int.max_signed; lia).
  apply (do_triangle_rejected s2 _ (Tri 0 (Z.of_nat n + 3) (Z.of_nat n + 2))).
  { rewrite at_index_of_nat. subst s2. simpl.
    rewrite of_size_small by (unfold Int.max_signed; lia).
    rewrite list_lookup_insert_eq; [do 3 f_equal; lia|].
    rewrite length_app. simpl. lia. }
  assert (E0 : at_index (positions s2) 0 = Some looping_apex).
  { subst s2. simpl. by rewrite Hp. }
  pose proof (looping_position s2 (S n) n Hinv2 ltac:(lia)) as E2.
  pose proof (looping_position s2 (S n) (S n) Hinv2 ltac:(lia)) as E3.
  replace (Z.of_nat (S n) + 2) with (Z.of_nat n + 3) in E3 by lia.
  destruct Hinv2 as [Ho2 Hnm2 _ _ _ _].
  assert (Hqq : no_intersection (get_lambda s2 looping_q looping_q) = true).
  { rewrite get_lambda_looping by done. by vm_compute. }
  assert (Haq : no_intersection (get_lambda s2 looping_apex looping_q) = true).
  { rewrite get_lambda_looping by done. by vm_compute. }
  assert (Hrej : ∀ i j a b p q,
    canonical i j = (a, b) →
    at_index (positions s2) a = Some p → at_index (positions s2) b = Some q →
    no_intersection (get_lambda s2 p q) = true → edge_rejected s2 i j).
  { intros i j a b p q Ec Ea Eb Hno. exists (get_lambda s2 p q).
    split; [|done]. apply edge_lambda_Some. rewrite Ec. eauto. }
  split_and!; simpl.
  - eapply (Hrej _ _ (Z.of_nat n + 2) (Z.of_nat n + 3)); eauto.
    unfold canonical. destruct (Z.of_nat n + 3 >? Z.of_nat n + 2) eqn:E; [done|].
    rewrite Z.gtb_ltb in E. apply Z.ltb_ge in E. lia.
  - eapply (Hrej _ _ 0 (Z.of_nat n + 2)); eauto.
    unfold canonical. destruct (Z.of_nat n + 2 >? 0) eqn:E; [done|].
    rewrite Z.gtb_ltb in E. apply Z.ltb_ge in E. lia.
  - eapply (Hrej _ _ 0 (Z.of_nat n + 3)); eauto.
    unfold canonical. destruct (0 >? Z.of_nat n + 3) eqn:E; [|done].
    apply Z.gtb_lt in E. lia.
Qed.

(** A visit whose first edge query reads out of range is undefined. *)
Lemma do_triangle_undefined s tid t :
  at_index (triangles s) tid = Some t →
  get_intersection s (t1 t) (t2 t) = None →
  do_triangle s tid = None.
Proof.
  intros Et Hg. unfold do_triangle. rewrite do_triangle_from_S, Et.
  simpl. by rewrite Hg.
Qed.

(** The second visit of slot [n] when the vertex count has reached
    [2^31]: the split index has wrapped to [-2^31], and the visit reads
    [positions] out of range. *)
Lemma looping_overflow s n :
  looping_inv n s → Z.of_nat n + 3 = 2 ^ 31 →
  let s2 := MkSlicer (positions s ++ [looping_q])
          (<[n := Tri 0 (Int.of_size (n + 3)) (Z.of_nat n + 2)]>
             (triangles s ++ [Tri 0 1 (Int.of_size (n + 3))]))
          (origin s) (normal s)
          (<[(1, Z.of_nat n + 2) := Int.of_size (n + 3)]> (intersections s)) in
  do_triangle s2 (Int.of_size n) = None.
Proof.
  intros [Ho Hnm Hp Hlen Hlast Hcache] Hn s2.
  assert (Hm : Int.of_size (n + 3) = - 2 ^ 31).
  { unfold Int.of_size. replace (Z.of_nat (n + 3)) with (2 ^ 31) by lia.
    by vm_compute. }
  rewrite of_size_small by (unfold Int.max_signed; lia).
  apply (do_triangle_undefined s2 _ (Tri 0 (- 2 ^ 31) (Z.of_nat n + 2))).
  - rewrite at_index_of_nat. subst s2. simpl. rewrite Hm.
    apply list_lookup_insert_eq. rewrite length_app. simpl. lia.
  - simpl. unfold get_intersection.
    assert (canonical (- 2 ^ 31) (Z.of_nat n + 2) = (- 2 ^ 31, Z.of_nat n + 2)) as ->.
    { unfold canonical. destruct (- 2 ^ 31 >? Z.of_nat n + 2) eqn:E; [|done].
      apply Z.gtb_lt in E. lia. }
    done.
Qed.

(** From a state of that shape the loop never comes to an end: it
    splits at every second iteration until the split index no longer
    fits in [int], and then reads out of range. *)
Lemma looping_never_done fuel :
  ∀ n s, looping_inv n s → Z.of_nat n + 3 ≤ 2 ^ 31 →
    ∀ s', cut_loop fuel s n ≠ Done s'.
Proof.
  induction fuel as [fuel IH] using lt_wf_ind. intros n s Hinv Hn s'.
  pose proof Hinv as [_ _ _ Hlen _ _].
  destruct fuel as [|fuel].
  { simpl. rewrite decide_True by lia. done. }
  rewrite (cut_loop_split fuel s n _ ltac:(lia) (looping_visit s n Hinv Hn)).
  destruct fuel as [|fuel].
  { simpl. rewrite decide_True; [done|]. rewrite length_insert, length_app. lia. }
  destruct (decide (Z.of_nat n + 3 = 2 ^ 31)) as [E|E].
  - simpl. rewrite decide_True by (rewrite length_insert, length_app; lia).
    by rewrite (looping_overflow s n Hinv E).
  - destruct (looping_revisit s n Hinv) as [Hd Hinv2].
    { unfold Int.max_signed. lia. }
    erewrite cut_loop_advance; [| |exact Hd].
    2: { simpl. rewrite length_insert, length_app. lia. }
    apply (IH fuel); [lia | done | lia].
Qed.

(** The cut of [looping] never returns. *)
Lemma looping_cut_never_returns : ∀ s', ¬ cut_returns looping s'.
Proof.
  intros s' [fuel H]. unfold cut in H.
  change (origin_is_zero (set_intersections looping ∅)) with false in H.
  simpl in H. revert H. apply looping_never_done.
  - apply looping_inv_0.
  - simpl. lia.
Qed.

(** ** A mesh that exceeds the bound [T + E] *)

Lemma valid_mesh_duplicated : valid_mesh duplicated.
Proof. repeat constructor; simpl; lia. Qed.

Lemma valid_mesh_looping : valid_mesh looping.
Proof. repeat constructor; simpl; lia. Qed.

Lemma duplicated_run :
  ∃ s', cut 20 duplicated = Done s' ∧ length (triangles s') = 12%nat.
Proof. eexists. split; by vm_compute. Qed.

(** The cut of [looping], a mesh of one triangle with valid indices,
    never returns.  The cut of [duplicated] (T = 4, E = 3) returns with
    8 new triangles, more than T + E = 7: the plane crosses edges 1-2
    and 0-1, and each of the four copies is split on both, a cache hit
    splitting the triangle just as a new vertex does. *)
Lemma termination_bound_fails :
  (valid_mesh looping ∧ ∀ s', ¬ cut_returns looping s') ∧
  (valid_mesh duplicated ∧
   ∃ s', cut_returns duplicated s' ∧
     ¬ (length (triangles s') - length (triangles duplicated)
        ≤ length (triangles duplicated) + unique_edges (triangles duplicated))%nat).
Proof.
  split.
  - split; [exact valid_mesh_looping | exact looping_cut_never_returns].
  - split; [exact valid_mesh_duplicated|].
    destruct duplicated_run as (s' & Hrun & Hlen).
    exists s'. split; [by exists 20%nat|].
    rewrite Hlen. vm_compute. lia.
Qed.

(** C7.  The loop of [cut] does not always come to an end.  On
    [looping] it never returns, whatever the number of iterations: the
    split vertex of edge 1-2 rounds onto vertex 2, the appended
    triangle is the old one again, and the loop splits until the vertex
    index no longer fits in [int].  On [oblique], an ordinary triangle,
    the run is still inside the loop after 1000 iterations, on slot 98,
    with 903 triangles where the bound allows [T + E = 4] new ones:
    the vertices it creates are not evaluated as points of the plane,
    and edges between them are split again and again. *)
Theorem cut_runs_without_end :
  (valid_mesh looping ∧ ∀ s', ¬ cut_returns looping s') ∧
  (valid_mesh oblique ∧
   cut 1000 oblique = OutOfFuel ∧
   (cut_state 1000 (set_intersections oblique ∅) 0).2 = 98%nat ∧
   length (triangles (cut_state 1000 (set_intersections oblique ∅) 0).1)
   = 903%nat ∧
   (length (triangles oblique) + unique_edges (triangles oblique) = 4)%nat).
Proof.
  split.
  - split; [exact valid_mesh_looping | exact looping_cut_never_returns].
  - split; [repeat constructor; simpl; lia|].
    split_and!; by vm_compute.
Qed.

(** ** A triangle on one side of the plane that is split *)

(** The arithmetic of edge 1-2 of [far], with [p] vertex 1 and [q]
    vertex 2.  The differences [1 - (2^53 + 6)] and [1 + (2^53 + 2)]
    are odd numbers beyond [2^53]; they round (ties to even) to
    [-(2^53 + 4)] and [2^53 + 4], which cancel, so the numerator is
    [0 - 1 = -1] where the exact offset of [q] is [-3].  The
    denominator [-2] is exact, and the quotient is [0.5]. *)
Lemma far_arithmetic :
  (1 - 9007199254740998 = -9007199254740996)%float ∧
  (1 - -9007199254740994 = 9007199254740996)%float ∧
  plane_offset far (Vec 9007199254740998 (-9007199254740994) 1) = (-1)%float ∧
  get_lambda far (Vec 9007199254740996 (-9007199254740994) 1)
                 (Vec 9007199254740998 (-9007199254740994) 1) = 0.5%float.
Proof. by vm_compute. Qed.


(** ** The slope of an edge *)

Lemma get_lambda_quotient s p q :
  get_lambda s p q = (plane_offset s q / plane_slope s p q)%float.
Proof. reflexivity. Qed.

Lemma zero_slope_rejected s p q :
  zero_or_nan (plane_slope s p q) → no_intersection (get_lambda s p q) = true.
Proof.
  intros H. unfold no_intersection. rewrite get_lambda_quotient.
  by rewrite (FloatFacts.div_by_zero_or_nan _ _ H).
Qed.

Lemma same_position_slope s p : zero_or_nan (plane_slope s p p).
Proof.
  unfold plane_slope.
  repeat apply FloatFacts.add_zero_or_nan;
    apply FloatFacts.mul_zero_or_nan_l, FloatFacts.sub_diag.
Qed.

(** ** Triangles on one side of the plane *)










(** ** What the loop leaves behind *)

(** An answer [NONE] from a state with a valid cache means that the
    edge is rejected, and nothing has changed. *)
Lemma get_intersection_none s i j s1 :
  get_intersection s i j = Some (s1, NONE) →
  valid_cache s → vertices_fit s1 →
  s1 = s ∧ edge_rejected s i j.
Proof.
  intros Hg%get_intersection_spec Hc Hfit.
  remember NONE as m eqn:Em.
  destruct Hg as [l El En| l m El En Ef |p q Ep Eq En Ef].
  - split; [done|]. by exists l.
  - subst m. apply Hc in Ef. unfold valid_index, NONE in Ef. lia.
  - exfalso. unfold vertices_fit in Hfit. simpl in Hfit.
    rewrite length_app in Hfit. simpl in Hfit.
    rewrite of_size_small in Em by (unfold Int.max_signed; lia).
    unfold NONE in Em. lia.
Qed.

(** A visit that answers [false] found the three edges rejected, and
    changed nothing. *)
Lemma do_triangle_false s tid s' :
  do_triangle s tid = Some (s', false) →
  valid_cache s → vertices_fit s' →
  ∃ t, at_index (triangles s) tid = Some t ∧ s' = s ∧ triangle_rejected s t.
Proof.
  unfold do_triangle. intros Hd Hc Hfit.
  assert (Hstep : ∀ n todo t,
    at_index (triangles s) tid = Some t →
    do_triangle_from s tid n (S todo) = Some (s', false) →
    edge_rejected s (tri_nth t ((n + 1) mod 3)) (tri_nth t ((n + 2) mod 3)) ∧
    do_triangle_from s tid (S n) todo = Some (s', false)).
  { intros n todo t Et. rewrite do_triangle_from_S, Et. cbn -[Nat.modulo].
    destruct (get_intersection s _ _) as [[s1 m]|] eqn:Eg;
      cbn -[Nat.modulo]; [|discriminate].
    destruct (m =? NONE) eqn:Em.
    - apply Z.eqb_eq in Em. subst m. intros Hrest.
      destruct (get_intersection_none _ _ _ _ Eg Hc) as [-> Hrej]; [|done].
      apply do_triangle_from_frame in Hrest as [Hext _].
      by eapply vertices_fit_extends.
    - destruct (assign_triangle _ _ _); cbn; discriminate. }
  destruct (at_index (triangles s) tid) as [t|] eqn:Et.
  2: { rewrite do_triangle_from_S, Et in Hd. discriminate. }
  exists t. split; [done|].
  destruct (Hstep 0%nat 2%nat t eq_refl Hd) as [R0 Hd1].
  destruct (Hstep 1%nat 1%nat t eq_refl Hd1) as [R1 Hd2].
  destruct (Hstep 2%nat 0%nat t eq_refl Hd2) as [R2 Hd3].
  simpl in Hd3. injection Hd3 as <-. done.
Qed.

Lemma cut_calls_triangles s s' :
  cut_calls s s' → (length (triangles s) ≤ length (triangles s'))%nat.
Proof.
  induction 1 as [s|s s1 s2 i j m Hg _ IH|s s1 s2 tid b Hd _ IH]; [done| |].
  - apply get_intersection_frame in Hg as [_ Ht]. by rewrite <- Ht.
  - apply do_triangle_frame in Hd as [_ Hb]. destruct b.
    + destruct Hb as (_ & kept & added & Ht). rewrite Ht in IH.
      rewrite length_insert, length_app in IH. lia.
    + by rewrite <- Hb.
Qed.

(** When the loop ends, every slot has been visited with the answer
    [false] after its last rewrite, and its triangle is rejected. *)
Lemma cut_loop_leaves_rejected fuel :
  ∀ s c s',
    cut_loop fuel s c = Done s' →
    valid_mesh s → valid_cache s → vertices_fit s' → triangles_fit s' →
    (∀ (k : nat) t, (k < c)%nat → triangles s !! k = Some t →
                    triangle_rejected s t) →
    Forall (triangle_rejected s') (triangles s').
Proof.
  induction fuel as [|fuel IH]; intros s c s' Hrun Hv Hc Hfit Htfit Hseen.
  - simpl in Hrun. destruct (decide (c < length (triangles s))%nat) as [|Hge];
      [discriminate|].
    injection Hrun as <-. apply Forall_lookup. intros k t Hk.
    apply (Hseen k t); [|done]. apply lookup_lt_Some in Hk. lia.
  - simpl in Hrun. destruct (decide (c < length (triangles s))%nat) as [Hlt|Hge].
    2: { injection Hrun as <-. apply Forall_lookup. intros k t Hk.
         apply (Hseen k t); [|done]. apply lookup_lt_Some in Hk. lia. }
    destruct (do_triangle s (Int.of_size c)) as [[s1 b]|] eqn:Hd; [|discriminate].
    pose proof (cut_loop_calls _ _ _ _ Hrun) as Hcalls.
    pose proof (cut_calls_extends _ _ Hcalls) as Hext1.
    pose proof (cut_calls_triangles _ _ Hcalls) as Hlen1.
    pose proof (vertices_fit_extends _ _ Hext1 Hfit) as Hfit1.
    destruct (do_triangle_from_valid _ _ _ _ _ _ Hd Hv Hc Hfit1) as (Hv1 & Hc1 & _).
    pose proof Hd as [Hext Hb]%do_triangle_frame.
    assert (Hc' : Int.of_size c = Z.of_nat c).
    { destruct b.
      - destruct Hb as (_ & kept & added & Ht).
        rewrite Ht, length_insert, length_app in Hlen1. simpl in Hlen1.
        apply of_size_small. unfold triangles_fit, Int.max_signed in *. lia.
      - rewrite Hb in Hlen1.
        apply of_size_small. unfold triangles_fit, Int.max_signed in *. lia. }
    destruct b.
    + apply (IH s1 c s' Hrun Hv1 Hc1 Hfit Htfit).
      intros k t Hk Ht. destruct Hb as (_ & kept & added & Htri).
      rewrite Htri, Hc', Nat2Z.id in Ht.
      rewrite list_lookup_insert_ne in Ht by lia.
      rewrite lookup_app_l in Ht by lia.
      eapply extends_triangle_rejected; [exact Hext|]. by eapply Hseen.
    + destruct (do_triangle_false _ _ _ Hd Hc Hfit1) as (t & Et & -> & Hrej).
      apply (IH s (S c) s' Hrun Hv Hc Hfit Htfit).
      intros k t' Hk Ht'. destruct (decide (k = c)) as [->|Hne].
      * rewrite Hc', at_index_of_nat in Et. congruence.
      * apply (Hseen k t'); [lia | done].
Qed.

(** X1.  When [cut] returns (on a valid mesh, with a plane origin that
    is not the world origin, and sizes within [int]), no triangle of the
    result has an edge left that passes the crossing test: each of the
    three edges of each triangle has a parameter that is not finite or
    lies outside [[precision, 1 - precision]]. *)
Theorem cut_leaves_no_crossing_edge s0 fuel s' :
  valid_mesh s0 →
  origin_is_zero s0 = false →
  cut fuel s0 = Done s' →
  vertices_fit s' → triangles_fit s' →
  Forall (triangle_rejected s') (triangles s').
Proof.
  intros Hv Ho Hrun Hfit Htfit. unfold cut in Hrun.
  change (origin_is_zero (set_intersections s0 ∅)) with (origin_is_zero s0) in Hrun.
  rewrite Ho in Hrun.
  apply (cut_loop_leaves_rejected fuel _ 0%nat s' Hrun); try done.
  intros k t Hk. lia.
Qed.

(** X2.  Cutting again a mesh that [cut] has returned changes
    nothing: the second call returns, once given one visit per
    triangle, with the same positions and the same triangles. *)
Theorem cut_twice s0 fuel s' fuel' :
  valid_mesh s0 →
  cut fuel s0 = Done s' →
  vertices_fit s' → triangles_fit s' →
  (length (triangles s') ≤ fuel')%nat →
  ∃ s'', cut fuel' s' = Done s'' ∧
         positions s'' = positions s' ∧ triangles s'' = triangles s'.
Proof.
  intros Hv Hrun Hfit Htfit Hfuel.
  exists (set_intersections s' ∅). split; [|done].
  unfold cut in *.
  change (origin_is_zero (set_intersections s0 ∅)) with (origin_is_zero s0) in Hrun.
  destruct (origin_is_zero s0) eqn:Ho.
  - injection Hrun as <-. simpl.
    change (origin_is_zero (set_intersections (set_intersections s0 ∅) ∅))
      with (origin_is_zero s0). by rewrite Ho.
  - destruct (origin_is_zero (set_intersections s' ∅)); [done|].
    apply cut_loop_all_rejected; simpl; [|done|lia].
    assert (Hrej : Forall (triangle_rejected s') (triangles s')).
    { apply (cut_loop_leaves_rejected fuel _ 0%nat s' Hrun); try done.
      intros k t Hk. lia. }
    exact Hrej.
Qed.

(** ** What the cut never touches *)

(** At every point of a run the positions of the start are a prefix of
    the positions, the plane is the same and no triangle has gone. *)
Lemma cut_calls_append_only s0 s :
  cut_calls (set_intersections s0 ∅) s →
  positions s0 `prefix_of` positions s ∧
  origin s = origin s0 ∧ normal s = normal s0 ∧
  (length (triangles s0) ≤ length (triangles s))%nat.
Proof.
  intros H. pose proof (cut_calls_extends _ _ H) as [Hp Ho Hn _].
  apply cut_calls_triangles in H. done.
Qed.

(** X3.  [cut] only appends to the mesh: when it returns, the positions
    it started from are a prefix of the positions, so every vertex
    index keeps its position; the plane is untouched; and the number of
    triangles has not decreased. *)
Theorem cut_append_only s0 fuel s' :
  cut fuel s0 = Done s' →
  positions s0 `prefix_of` positions s' ∧
  (∀ i p, at_index (positions s0) i = Some p →
          at_index (positions s') i = Some p) ∧
  origin s' = origin s0 ∧ normal s' = normal s0 ∧
  (length (triangles s0) ≤ length (triangles s'))%nat.
Proof.
  intros Hrun.
  assert (Hc : cut_calls (set_intersections s0 ∅) s').
  { unfold cut in Hrun. destruct (origin_is_zero _).
    - injection Hrun as <-. constructor.
    - by eapply cut_loop_calls. }
  destruct (cut_calls_append_only s0 s' Hc) as (Hp & Ho & Hn & Hl).
  split_and!; try done. intros i p. by apply at_index_prefix.
Qed.

(** ** The cache and the vertices it stands for *)

Lemma lookup_result_cache_matches v0 s i j s' m :
  lookup_result s i j s' m → vertices_fit s' →
  cache_matches v0 s → cache_matches v0 s'.
Proof.
  intros Hr Hfit Hm. destruct Hr as [| |p q Ep Eq En Ef]; try done.
  destruct Hm as [Hcount Hrange Hinj].
  unfold vertices_fit in Hfit. simpl in Hfit. rewrite length_app in Hfit.
  simpl in Hfit.
  rewrite of_size_small by (unfold Int.max_signed; lia).
  split; simpl.
  - rewrite length_app, map_size_insert_None by done. simpl. lia.
  - intros key m'. rewrite length_app. simpl.
    intros [[_ <-]|[_ Hold]]%lookup_insert_Some; [lia|].
    apply Hrange in Hold. lia.
  - intros k1 k2 m' [[<- <-]|[Hn1 H1]]%lookup_insert_Some
                    [[<- E2]|[Hn2 H2]]%lookup_insert_Some; try done.
    + apply Hrange in H2. lia.
    + apply Hrange in H1. lia.
    + by eapply Hinj.
Qed.

Lemma lookup_result_cache_interpolates s i j s' m :
  lookup_result s i j s' m → vertices_fit s' →
  cache_interpolates s → cache_interpolates s'.
Proof.
  intros Hr Hfit Hm.
  pose proof (lookup_result_frame _ _ _ _ _ Hr) as [[Hp Ho Hn _] _].
  destruct Hr as [| |p q Ep Eq En Ef]; try done.
  unfold vertices_fit in Hfit. simpl in Hfit. rewrite length_app in Hfit.
  simpl in Hfit.
  rewrite of_size_small by (unfold Int.max_signed; lia).
  intros a b m'. simpl.
  intros [[Hk <-]|[_ Hold]]%lookup_insert_Some.
  - pose proof (canonical_le i j) as Hle. rewrite Hk in Ep, Eq, Hle.
    simpl in *. split; [done|]. exists p, q.
    split_and!; try done.
    + eapply at_index_prefix; [|exact Ep]. by apply prefix_app_r.
    + eapply at_index_prefix; [|exact Eq]. by apply prefix_app_r.
    + rewrite at_index_of_nat. by rewrite list_lookup_middle.
  - destruct (Hm a b m' Hold) as (Hle & p' & q' & Ea & Eb & En' & Em).
    split; [done|]. exists p', q'.
    split_and!; try done.
    + eapply at_index_prefix; [|exact Ea]. by apply prefix_app_r.
    + eapply at_index_prefix; [|exact Eb]. by apply prefix_app_r.
    + eapply at_index_prefix; [|exact Em]. by apply prefix_app_r.
Qed.

(** An invariant of [get_intersection] that does not read the triangles
    is an invariant of every call of the cut. *)
Lemma cut_calls_invariant (P : Slicer → Prop) :
  (∀ s ts, P s → P (set_triangles s ts)) →
  (∀ s i j s' m, lookup_result s i j s' m → vertices_fit s' → P s → P s') →
  ∀ s s', cut_calls s s' → vertices_fit s' → P s → P s'.
Proof.
  intros Htri Hstep.
  assert (Hdo : ∀ todo s tid n s' b,
    do_triangle_from s tid n todo = Some (s', b) → vertices_fit s' → P s → P s').
  { induction todo as [|todo IH]; intros s tid n s' b.
    { simpl. by intros [= <- <-]. }
    rewrite do_triangle_from_S.
    destruct (at_index (triangles s) tid) as [t|]; cbn -[Nat.modulo]; [|discriminate].
    destruct (get_intersection s _ _) as [[s1 m]|] eqn:Eg;
      cbn -[Nat.modulo]; [|discriminate].
    apply get_intersection_spec in Eg.
    destruct (m =? NONE).
    - intros Hd Hfit HP. pose proof Hd as [Hext _]%do_triangle_from_frame.
      eapply IH; [exact Hd | done |].
      eapply Hstep; [exact Eg | by eapply vertices_fit_extends | done].
    - destruct (assign_triangle _ _ _) as [s2|] eqn:Ea; cbn; [|discriminate].
      intros [= <- <-] Hfit HP. apply assign_triangle_Some in Ea as ->.
      apply Htri, Htri. eapply Hstep; [exact Eg | exact Hfit | done]. }
  induction 1 as [s|s s1 s2 i j m Hg Hc IH|s s1 s2 tid b Hd Hc IH];
    intros Hfit HP; [done| |].
  - apply IH; [done|]. apply get_intersection_spec in Hg.
    eapply Hstep; [exact Hg| |done].
    eapply vertices_fit_extends; [|exact Hfit]. by apply cut_calls_extends.
  - apply IH; [done|]. eapply Hdo; [exact Hd| |done].
    eapply vertices_fit_extends; [|exact Hfit]. by apply cut_calls_extends.
Qed.

Lemma cut_returns_calls fuel s0 s' :
  cut fuel s0 = Done s' → cut_calls (set_intersections s0 ∅) s'.
Proof.
  unfold cut. destruct (origin_is_zero _).
  - intros [= <-]. constructor.
  - apply cut_loop_calls.
Qed.

(** X4.  When [cut] returns, the cache holds exactly one entry per
    vertex that the cut created: the number of new vertices is the size
    of the cache, every cached index is the index of a new vertex, and
    no two edges share a vertex. *)
Theorem cut_one_vertex_per_edge s0 fuel s' :
  cut fuel s0 = Done s' → vertices_fit s' →
  (length (positions s') - length (positions s0))%nat
  = size (intersections s') ∧
  (∀ key m, intersections s' !! key = Some m →
     Z.of_nat (length (positions s0)) ≤ m < Z.of_nat (length (positions s'))) ∧
  (∀ k1 k2 m, intersections s' !! k1 = Some m →
     intersections s' !! k2 = Some m → k1 = k2).
Proof.
  intros Hrun%cut_returns_calls Hfit.
  assert (Hinv : cache_matches (length (positions s0)) s').
  { refine (cut_calls_invariant (cache_matches (length (positions s0)))
              _ _ _ _ Hrun Hfit _).
    - intros s ts [? ? ?]. by split.
    - intros s i j s1 m Hr Hf. by eapply lookup_result_cache_matches.
    - split; simpl.
      + rewrite map_size_empty. lia.
      + intros key m. by rewrite lookup_empty.
      + intros k1 k2 m. by rewrite lookup_empty. }
  destruct Hinv as [Hcount Hrange Hinj]. split; [lia|done].
Qed.

(** X5.  When [cut] returns, every entry of the cache binds a pair
    [(a, b)] with [a ≤ b] to the vertex interpolated between the
    positions of [a] and [b], at a parameter that passes the crossing
    test. *)
Theorem cut_split_vertices_interpolate s0 fuel s' a b m :
  cut fuel s0 = Done s' → vertices_fit s' →
  intersections s' !! (a, b) = Some m →
  a ≤ b ∧
  ∃ p q, at_index (positions s') a = Some p ∧
         at_index (positions s') b = Some q ∧
         in_tolerance (get_lambda s0 p q) ∧
         at_index (positions s') m
         = Some (interpolate (get_lambda s0 p q) p q).
Proof.
  intros Hrun Hfit Hm.
  pose proof (cut_returns_calls _ _ _ Hrun) as Hcalls.
  pose proof (cut_calls_extends _ _ Hcalls) as [_ Ho Hn _].
  assert (Hinv : cache_interpolates s').
  { refine (cut_calls_invariant cache_interpolates _ _ _ _ Hcalls Hfit _).
    - done.
    - intros s i j s1 m1 Hr Hf. by eapply lookup_result_cache_interpolates.
    - intros a' b' m'. simpl. by rewrite lookup_empty. }
  destruct (Hinv a b m Hm) as (Hle & p & q & Ea & Eb & En & Em).
  split; [done|]. exists p, q.
  rewrite (get_lambda_plane s0 s') in En, Em by done.
  split_and!; try done. by apply no_intersection_false_iff.
Qed.

(** ** Edges that are never split *)

(** X6.  An edge parallel to the plane, or in it, is never split: when
    the denominator of [get_lambda] is zero (of either sign), the
    parameter is infinite or NaN, and [get_intersection] answers [-1]
    without touching the state, whatever the cache holds. *)
Theorem parallel_edge_never_split s i j p q :
  at_index (positions s) (canonical i j).1 = Some p →
  at_index (positions s) (canonical i j).2 = Some q →
  (plane_slope s p q =? 0)%float = true →
  is_finite (get_lambda s p q) = false ∧
  get_intersection s i j = Some (s, NONE).
Proof.
  intros Ep Eq Hz.
  assert (Hzn : zero_or_nan (plane_slope s p q)).
  { apply FloatFacts.is_zero_SF in Hz as [sg Hz]. unfold zero_or_nan.
    by rewrite Hz. }
  split.
  - rewrite get_lambda_quotient. by apply FloatFacts.div_by_zero_or_nan.
  - apply get_intersection_rejected. exists (get_lambda s p q). split.
    + apply edge_lambda_Some. eauto.
    + by apply zero_slope_rejected.
Qed.

Lemma same_position_edge_rejected s i j p :
  at_index (positions s) i = Some p → at_index (positions s) j = Some p →
  edge_rejected s i j.
Proof.
  intros Ei Ej. exists (get_lambda s p p). split.
  - apply edge_lambda_Some. exists p, p.
    destruct (canonical_cases i j) as [-> | ->]; simpl; done.
  - apply zero_slope_rejected, same_position_slope.
Qed.

(** X7.  An edge whose two end points are at the same position
    (bit for bit: the same vertex, or a duplicate) is never split, for
    any coordinates, infinities and NaNs included; and a triangle whose
    three vertices are at one position is left as it is by
    [do_triangle]. *)
Theorem zero_length_edge_never_split s i j p :
  at_index (positions s) i = Some p →
  at_index (positions s) j = Some p →
  get_intersection s i j = Some (s, NONE) ∧
  ∀ tid k, at_index (triangles s) tid = Some (Tri i j k) →
           at_index (positions s) k = Some p →
           do_triangle s tid = Some (s, false).
Proof.
  intros Ei Ej. split.
  - by eapply get_intersection_rejected, same_position_edge_rejected.
  - intros tid k Et Ek. apply (do_triangle_rejected s tid _ Et).
    split_and!; by eapply same_position_edge_rejected.
Qed.

(** ** The number of visits *)

Lemma cut_loop_visits fuel :
  ∀ s c s',
    cut_loop fuel s c = Done s' → (c ≤ length (triangles s))%nat →
    ∀ f, cut_loop f s c =
         if decide ((length (triangles s') - c)
                    + (length (triangles s') - length (triangles s)) ≤ f)%nat
         then Done s' else OutOfFuel.
Proof.
  induction fuel as [|fuel IH]; intros s c s' Hrun Hc f.
  - simpl in Hrun. destruct (decide (c < length (triangles s))%nat) as [|Hge];
      [discriminate|].
    injection Hrun as <-. rewrite cut_loop_end by done.
    rewrite decide_True; [done | lia].
  - pose proof (cut_loop_calls _ _ _ _ Hrun) as Hlen%cut_calls_triangles.
    simpl in Hrun.
    destruct (decide (c < length (triangles s))%nat) as [Hlt|Hge].
    2: { injection Hrun as <-. rewrite cut_loop_end by done.
         rewrite decide_True; [done | lia]. }
    destruct (do_triangle s (Int.of_size c)) as [[s1 b]|] eqn:Hd; [|discriminate].
    pose proof (cut_loop_calls _ _ _ _ Hrun) as Hlen1%cut_calls_triangles.
    pose proof Hd as [_ Hb]%do_triangle_frame.
    destruct f as [|f].
    { simpl. rewrite decide_True by done. rewrite decide_False; [done | lia]. }
    simpl. rewrite decide_True by done. rewrite Hd.
    destruct b.
    + destruct Hb as (_ & kept & added & Ht).
      assert (Hl : length (triangles s1) = S (length (triangles s))).
      { rewrite Ht, length_insert, length_app. simpl. lia. }
      rewrite (IH s1 c s' Hrun) by lia. rewrite Hl in *.
      destruct (decide _), (decide _); try done; lia.
    + rewrite (IH s1 (S c) s' Hrun) by (rewrite Hb; lia). rewrite Hb in *.
      destruct (decide _), (decide _); try done; lia.
Qed.

(** X8.  A cut that returns visits triangles exactly [2 T' - T] times,
    where [T] and [T'] are the numbers of triangles before and after:
    once for each triangle of the result, and once more for each split.
    The fuel counts the visits: with that many the run returns, with
    fewer it is still in the loop. *)
Theorem cut_visit_count s0 fuel s' :
  origin_is_zero s0 = false →
  cut fuel s0 = Done s' →
  ∀ f, (cut f s0 = Done s' ↔
        (2 * length (triangles s') - length (triangles s0) ≤ f)%nat) ∧
       ((f < 2 * length (triangles s') - length (triangles s0))%nat →
        cut f s0 = OutOfFuel).
Proof.
  intros Ho Hrun f. unfold cut in *.
  change (origin_is_zero (set_intersections s0 ∅)) with (origin_is_zero s0) in *.
  rewrite Ho in *.
  pose proof (cut_loop_calls _ _ _ _ Hrun) as Hlen%cut_calls_triangles.
  simpl in Hlen.
  rewrite (cut_loop_visits fuel _ 0%nat s' Hrun) by lia. simpl.
  destruct (decide _) as [Hle|Hgt].
  - split; [|lia]. split; [lia | done].
  - split; [|done]. split; [discriminate | lia].
Qed.

(** ** NaN in the mesh or in the plane *)

Create HintDb nan.

#[local] Hint Resolve FloatFacts.nan_sub_l FloatFacts.nan_sub_r
  FloatFacts.nan_mul_l FloatFacts.nan_mul_r FloatFacts.nan_add_l
  FloatFacts.nan_add_r FloatFacts.nan_div_l FloatFacts.nan_div_r : nan.

Lemma has_nan_cases v :
  has_nan v = true →
  Prim2SF (c0 v) = S754_nan ∨ Prim2SF (c1 v) = S754_nan
  ∨ Prim2SF (c2 v) = S754_nan.
Proof.
  unfold has_nan. intros [[H|H]%orb_prop|H]%orb_prop;
    apply FloatFacts.is_nan_SF in H; auto.
Qed.

Lemma get_lambda_nan s p q :
  has_nan p || has_nan q || has_nan (origin s) || has_nan (normal s) = true →
  Prim2SF (get_lambda s p q) = S754_nan.
Proof.
  intros [[[H|H]%orb_prop|H]%orb_prop|H]%orb_prop;
    apply has_nan_cases in H as [H|[H|H]];
    unfold get_lambda; auto 8 with nan.
Qed.

(** X15.  NaN never produces a vertex: an edge is not split when a
    coordinate of one of its end points, or a component of the plane
    origin or of the plane normal, is a NaN.  [get_intersection] answers
    [-1] and leaves the state as it is. *)
Theorem nan_edge_never_split s i j p q :
  at_index (positions s) (canonical i j).1 = Some p →
  at_index (positions s) (canonical i j).2 = Some q →
  has_nan p || has_nan q || has_nan (origin s) || has_nan (normal s) = true →
  get_intersection s i j = Some (s, NONE).
Proof.
  intros Ep Eq Hn. apply get_intersection_rejected.
  exists (get_lambda s p q). split.
  - apply edge_lambda_Some. eauto.
  - by apply nan_no_intersection, get_lambda_nan.
Qed.

(** X16.  With a NaN in the origin or in the normal of the plane,
    [cut] finds no edge to split: it returns after one visit per
    triangle, with the positions and the triangles it was given. *)
Theorem cut_nan_plane_noop s fuel :
  has_nan (origin s) || has_nan (normal s) = true →
  valid_mesh s → triangles_fit s →
  (length (triangles s) ≤ fuel)%nat →
  ∃ s', cut fuel s = Done s' ∧
        positions s' = positions s ∧ triangles s' = triangles s.
Proof.
  intros Hn Hv Hsz Hfuel. exists (set_intersections s ∅).
  split; [|done]. unfold cut.
  destruct (origin_is_zero (set_intersections s ∅)); [done|].
  apply cut_loop_all_rejected; simpl; [|done|lia].
  eapply Forall_impl; [exact Hv|].
  intros t (H0 & H1 & H2).
  assert (Hedge : ∀ i j, valid_index s i → valid_index s j →
                         edge_rejected (set_intersections s ∅) i j).
  { intros i j Hi Hj. destruct (valid_edge_lambda s i j Hi Hj) as [lambda El].
    exists lambda. split; [done|].
    apply edge_lambda_Some in El as (p & q & _ & _ & ->).
    apply nan_no_intersection, get_lambda_nan.
    rewrite <- orb_assoc, Hn. apply orb_true_r. }
  split_and!; by apply Hedge.
Qed.

(** ** New vertices and new triangles *)

Lemma do_triangle_from_grows todo :
  ∀ s tid n s' b,
    do_triangle_from s tid n todo = Some (s', b) →
    valid_cache s → vertices_fit s' →
    (length (positions s')
     ≤ length (positions s) + (if b then 1 else 0))%nat
    ∧ length (triangles s')
      = (length (triangles s) + (if b then 1 else 0))%nat.
Proof.
  induction todo as [|todo IH]; intros s tid n s' b Hd Hc Hfit.
  - simpl in Hd. injection Hd as <- <-. lia.
  - rewrite do_triangle_from_S in Hd.
    destruct (at_index (triangles s) tid) as [t|]; [|discriminate].
    cbn -[Nat.modulo] in Hd.
    destruct (get_intersection s _ _) as [[s1 m]|] eqn:Eg;
      cbn -[Nat.modulo] in Hd; [|discriminate].
    destruct (m =? NONE) eqn:Em.
    + apply Z.eqb_eq in Em. subst m.
      destruct (get_intersection_none _ _ _ _ Eg Hc) as [-> _].
      { apply do_triangle_from_frame in Hd as [Hext _].
        by eapply vertices_fit_extends. }
      by apply (IH s tid (S n)).
    + destruct (assign_triangle _ _ _) as [s2|] eqn:Ea;
        cbn in Hd; [|discriminate].
      injection Hd as <- <-.
      unfold assign_triangle in Ea.
      destruct (at_index _ tid); [|discriminate]. cbn in Ea.
      injection Ea as <-. simpl. rewrite length_insert, length_app. simpl.
      pose proof (get_intersection_frame _ _ _ _ _ Eg) as [_ Ht].
      rewrite <- Ht.
      apply get_intersection_spec in Eg.
      destruct Eg; simpl; rewrite ?length_app; simpl; lia.
Qed.

Lemma cut_loop_grows fuel :
  ∀ s c s',
    cut_loop fuel s c = Done s' →
    valid_mesh s → valid_cache s → vertices_fit s' →
    (length (positions s') + length (triangles s)
     ≤ length (positions s) + length (triangles s'))%nat.
Proof.
  induction fuel as [|fuel IH]; intros s c s' Hrun Hv Hc Hfit.
  - simpl in Hrun. destruct (decide (c < length (triangles s))%nat);
      [discriminate|]. by injection Hrun as <-.
  - simpl in Hrun. destruct (decide (c < length (triangles s))%nat).
    2: { by injection Hrun as <-. }
    destruct (do_triangle s (Int.of_size c)) as [[s1 b]|] eqn:Hd;
      [|discriminate].
    pose proof (cut_loop_calls _ _ _ _ Hrun) as Hcalls.
    pose proof (vertices_fit_extends _ _ (cut_calls_extends _ _ Hcalls) Hfit)
      as Hfit1.
    destruct (do_triangle_from_valid _ _ _ _ _ _ Hd Hv Hc Hfit1)
      as (Hv1 & Hc1 & _).
    destruct (do_triangle_from_grows _ _ _ _ _ _ Hd Hc Hfit1) as [Hp Ht].
    specialize (IH s1 _ s' Hrun Hv1 Hc1 Hfit).
    destruct b; lia.
Qed.

(** X14.  A cut adds at most as many vertices as it adds triangles:
    every split appends one triangle and at most one vertex, none when
    the edge was split before. *)
Theorem cut_new_vertices_le_new_triangles s0 fuel s' :
  valid_mesh s0 →
  cut fuel s0 = Done s' → vertices_fit s' →
  (length (positions s') - length (positions s0)
   ≤ length (triangles s') - length (triangles s0))%nat.
Proof.
  intros Hv Hrun Hfit. unfold cut in Hrun.
  destruct (origin_is_zero _).
  - injection Hrun as <-. simpl. lia.
  - assert (Hc : valid_cache (set_intersections s0 ∅)).
    { intros key m. simpl. by rewrite lookup_empty. }
    pose proof (cut_loop_grows _ _ _ _ Hrun Hv Hc Hfit) as H.
    simpl in H. lia.
Qed.

(** ** Lines of a text *)

Lemma getlines_nil l : getlines l = [] → l = [].
Proof.
  destruct l as [|c l]; [done|]. simpl.
  destruct (Ascii.eqb c newline); [done|]. by destruct (getlines l).
Qed.

Lemma getlines_line line r :
  one_line line →
  getlines (line ++ newline :: r) = line :: getlines r.
Proof.
  induction 1 as [|c line Hc _ IH]; simpl.
  - done.
  - by rewrite Hc, IH.
Qed.

Lemma getlines_last line :
  line ≠ [] → one_line line →
  getlines line = [line].
Proof.
  intros Hne H. induction H as [|c line Hc H IH]; [done|].
  simpl. rewrite Hc. destruct line as [|d line]; [done|].
  by rewrite IH.
Qed.

Lemma getlines_terminated l r :
  terminated l → getlines (l ++ r) = getlines l ++ getlines r.
Proof.
  intros [->|Hl]; [done|].
  induction l as [|c l IH]; [done|].
  simpl. destruct l as [|d l].
  - injection Hl as ->. by simpl.
  - specialize (IH Hl).
    destruct (Ascii.eqb c newline); [by rewrite IH|].
    rewrite IH. destruct (getlines (d :: l)) as [|x xs] eqn:E; [|done].
    by apply getlines_nil in E.
Qed.

(** ** Loading *)

Section LoadFacts.

Variable num_get_double : text → extracted float.
Variable num_get_int : text → extracted Z.

Local Abbreviation load_line := (load_line num_get_double num_get_int).
Local Abbreviation load_lines := (load_lines num_get_double num_get_int).
Local Abbreviation load := (load num_get_double num_get_int).
Local Abbreviation read_vertex := (read_vertex num_get_double).
Local Abbreviation read_face := (read_face num_get_int).

Lemma load_line_cases s line :
  load_line s line =
    if decide (first_word line = txt "v") then
      p ← read_vertex (extract_word (open_line line)).2;
      Some (push_position s p)
    else if decide (first_word line = txt "f") then
      t ← read_face (extract_word (open_line line)).2;
      Some (push_triangle s t)
    else Some s.
Proof.
  unfold IO.load_line, first_word.
  by destruct (extract_word (open_line line)).
Qed.

Lemma load_lines_app s l1 l2 :
  load_lines s (l1 ++ l2) = s' ← load_lines s l1; load_lines s' l2.
Proof.
  revert s. induction l1 as [|l l1 IH]; intros s; simpl; [done|].
  destruct (load_line s l); simpl; [apply IH|done].
Qed.

Lemma load_line_same_mesh s1 s2 line :
  same_mesh s1 s2 →
  option_Forall2 same_mesh (load_line s1 line) (load_line s2 line).
Proof.
  intros [Hp Ht]. rewrite !load_line_cases.
  repeat case_decide.
  - destruct (read_vertex _); constructor. split; simpl; congruence.
  - destruct (read_face _); constructor. split; simpl; congruence.
  - by constructor.
Qed.

Lemma load_lines_same_mesh lines s1 s2 :
  same_mesh s1 s2 →
  option_Forall2 same_mesh (load_lines s1 lines) (load_lines s2 lines).
Proof.
  revert s1 s2. induction lines as [|l lines IH]; intros s1 s2 H; simpl.
  - by constructor.
  - destruct (load_line_same_mesh s1 s2 l H) as [a b Hab|]; simpl;
      [by apply IH|constructor].
Qed.

Lemma load_line_plane s line s' :
  load_line s line = Some s' →
  origin s' = origin s ∧ normal s' = normal s
  ∧ intersections s' = intersections s.
Proof.
  rewrite load_line_cases. intros Hl.
  repeat case_decide.
  - destruct (read_vertex _); simplify_eq/=. done.
  - destruct (read_face _); simplify_eq/=. done.
  - by simplify_eq.
Qed.

Lemma load_lines_plane lines s s' :
  load_lines s lines = Some s' →
  origin s' = origin s ∧ normal s' = normal s
  ∧ intersections s' = intersections s.
Proof.
  revert s. induction lines as [|l lines IH]; intros s H; simpl in H.
  - by simplify_eq.
  - destruct (load_line s l) as [s1|] eqn:E; [|done]. simpl in H.
    destruct (load_line_plane _ _ _ E) as (<- & <- & <-). by apply IH.
Qed.

(** X9.  [load] replaces the mesh and nothing else.  It returns [true]
    exactly when the file can be opened; when it cannot, the mesh is
    left empty, not as it was.  The plane and the cache are untouched,
    and the mesh loaded does not depend on the state before. *)
Theorem load_replaces_mesh file s s' ok :
  load file s = Some (s', ok) →
  ok = bool_decide (is_Some file)
  ∧ (ok = false → positions s' = [] ∧ triangles s' = [])
  ∧ origin s' = origin s ∧ normal s' = normal s
  ∧ intersections s' = intersections s
  ∧ ∀ s2, load file s2
          = Some (MkSlicer (positions s') (triangles s') (origin s2)
                           (normal s2) (intersections s2), ok).
Proof.
  unfold IO.load. destruct file as [content|]; intros H.
  - destruct (load_lines (clear s) (getlines content)) as [s1|] eqn:E;
      simplify_eq/=.
    destruct (load_lines_plane _ _ _ E) as (Ho & Hn & Hi).
    split_and!; try done.
    intros s2.
    assert (Hs : same_mesh (clear s) (clear s2)) by done.
    pose proof (load_lines_plane (getlines content) (clear s2)) as Hpl.
    destruct (load_lines_same_mesh (getlines content) _ _ Hs)
      as [a b [Hp Ht]|]; simplify_eq/=.
    destruct (Hpl _ eq_refl) as (? & ? & ?).
    destruct b; simpl in *. by subst.
  - simplify_eq/=. by split_and!.
Qed.

(** X10.  A line whose first word is neither [v] nor [f] (a comment,
    a normal [vn], an empty line, ...) is ignored: the file without that
    line loads to the same result. *)
Theorem load_ignores_other_lines before line after s :
  terminated before →
  one_line line →
  first_word line ≠ txt "v" → first_word line ≠ txt "f" →
  load (Some (before ++ line ++ newline :: after)) s
  = load (Some (before ++ after)) s.
Proof.
  intros Hb Hl Hv Hf. unfold IO.load.
  rewrite !(getlines_terminated before) by done.
  rewrite getlines_line by done.
  rewrite !load_lines_app. destruct (load_lines _ (getlines before)); [|done].
  simpl. rewrite load_line_cases.
  rewrite decide_False by done. rewrite decide_False by done. done.
Qed.

Lemma load_lines_count lines s s' :
  load_lines s lines = Some s' →
  length (positions s')
  = (length (positions s)
     + length (filter (λ l, first_word l = txt "v") lines))%nat
  ∧ length (triangles s')
  = (length (triangles s)
     + length (filter (λ l, first_word l = txt "f") lines))%nat.
Proof.
  revert s. induction lines as [|l lines IH]; intros s H; simpl in H.
  - simplify_eq. simpl. lia.
  - destruct (load_line s l) as [s1|] eqn:E; [|done]. simpl in H.
    destruct (IH _ H) as [-> ->]. clear IH H.
    rewrite load_line_cases in E. rewrite !filter_cons.
    destruct (decide (first_word l = txt "v")) as [Hv|Hv].
    + rewrite decide_False by (rewrite Hv; done).
      destruct (read_vertex _); simplify_eq/=.
      rewrite length_app. simpl. lia.
    + destruct (decide (first_word l = txt "f")) as [Hf|Hf].
      * destruct (read_face _); simplify_eq/=.
        rewrite length_app. simpl. lia.
      * simplify_eq. lia.
Qed.

(** X11.  A file that [load] reads gives one vertex for each line
    whose first word is [v], and one triangle for each line whose first
    word is [f]. *)
Theorem load_counts_lines content s s' ok :
  load (Some content) s = Some (s', ok) →
  length (positions s')
  = length (filter (λ l, first_word l = txt "v") (getlines content))
  ∧ length (triangles s')
  = length (filter (λ l, first_word l = txt "f") (getlines content)).
Proof.
  unfold IO.load. intros H.
  destruct (load_lines _ _) as [s1|] eqn:E; simplify_eq/=.
  by destruct (load_lines_count _ _ _ E) as [-> ->].
Qed.

Lemma skip_space_spaces spaces :
  Forall (λ c, isspace c = true) spaces → skip_space spaces = [].
Proof. induction 1 as [|c l Hc _ IH]; simpl; [done|by rewrite Hc]. Qed.

Lemma take_word_spaces spaces :
  Forall (λ c, isspace c = true) spaces → take_word spaces = ([], spaces).
Proof. destruct 1 as [|c l Hc _]; simpl; [done|by rewrite Hc]. Qed.

(** Once the sentry has failed, no extraction writes its target. *)
Lemma read_vertex_failed st : (sentry st).1 = false → read_vertex st = None.
Proof.
  unfold IO.read_vertex, IO.extract_double, sentry. intros H.
  destruct (good st) eqn:G.
  - destruct (skip_space (pending st)); [|done]. done.
  - unfold good. simpl. by rewrite !andb_false_r.
Qed.

Lemma read_face_failed st : (sentry st).1 = false → read_face st = None.
Proof.
  unfold IO.read_face, IO.extract_int, sentry. intros H.
  destruct (good st) eqn:G.
  - destruct (skip_space (pending st)); [|done]. done.
  - unfold good. simpl. by rewrite !andb_false_r.
Qed.

Lemma extract_word_letter w spaces :
  isspace w = false → Forall (λ c, isspace c = true) spaces →
  extract_word (open_line (w :: spaces))
  = ([w], MkIstream spaces (bool_decide (spaces = [])) false)
  ∧ (sentry (MkIstream spaces (bool_decide (spaces = [])) false)).1 = false.
Proof.
  intros Hw Hs. split.
  - unfold extract_word, sentry, open_line. simpl. rewrite Hw. simpl.
    by rewrite Hw, (take_word_spaces _ Hs).
  - unfold sentry, good. simpl. destruct Hs as [|c l Hc Hl]; [done|].
    rewrite bool_decide_false by done. simpl.
    by rewrite Hc, (skip_space_spaces _ Hl).
Qed.

(** X13.  A line that holds the word [v] or [f] and no number makes
    [load] push an array that no extraction has written: the vertex or
    the triangle is indeterminate, and the behaviour of [load] on such
    a file is undefined, whatever the other lines are. *)
Theorem load_line_without_numbers before w spaces after s :
  w = "v"%char ∨ w = "f"%char →
  Forall (λ c, isspace c = true) spaces → one_line spaces →
  terminated before →
  load (Some (before ++ w :: spaces ++ newline :: after)) s = None.
Proof.
  intros Hw Hs Hl Hb. unfold IO.load.
  rewrite (getlines_terminated before) by done.
  assert (Hnw : isspace w = false) by (by destruct Hw as [-> | ->]).
  assert (Hline : one_line (w :: spaces)).
  { constructor; [by destruct Hw as [-> | ->]|done]. }
  rewrite (app_comm_cons spaces), (getlines_line _ _ Hline).
  rewrite load_lines_app.
  destruct (load_lines _ (getlines before)) as [s1|]; [|done].
  simpl. unfold IO.load_line.
  destruct (extract_word_letter w spaces Hnw Hs) as [-> Hfail].
  destruct Hw as [-> | ->].
  - rewrite decide_True by done. by rewrite (read_vertex_failed _ Hfail).
  - rewrite decide_False by done. rewrite decide_True by done.
    by rewrite (read_face_failed _ Hfail).
Qed.

End LoadFacts.

(** ** Numbers in a line *)

Lemma isspace_newline c : isspace c = false → Ascii.eqb c newline = false.
Proof.
  intros H. destruct (Ascii.eqb_spec c newline) as [->|]; [|done].
  by vm_compute in H.
Qed.

Lemma field_no_newline t :
  field t → one_line t.
Proof. intros [_ H]. eapply Forall_impl; [done|]. apply isspace_newline. Qed.

Lemma skip_space_field t r :
  field t → ∃ c l, t ++ r = c :: l ∧ skip_space (t ++ r) = c :: l.
Proof.
  intros [Hne H]. destruct H as [|c t Hc _]; [done|].
  exists c, (t ++ r). simpl. by rewrite Hc.
Qed.

Lemma numbers_line_no_newline w a b c :
  isspace w = false → field a → field b → field c →
  one_line (numbers_line w a b c).
Proof.
  intros Hw Ha Hb Hc. unfold numbers_line.
  constructor; [by apply isspace_newline|].
  constructor; [done|]. apply Forall_app; split; [by apply field_no_newline|].
  constructor; [done|]. apply Forall_app; split; [by apply field_no_newline|].
  constructor; [done|]. by apply field_no_newline.
Qed.

Section LineFacts.

Variable num_get_double : text → extracted float.
Variable num_get_int : text → extracted Z.

Local Abbreviation load_line := (load_line num_get_double num_get_int).
Local Abbreviation load_lines := (load_lines num_get_double num_get_int).
Local Abbreviation load := (load num_get_double num_get_int).
Local Abbreviation extract_double := (extract_double num_get_double).
Local Abbreviation extract_int := (extract_int num_get_int).
Local Abbreviation read_vertex := (read_vertex num_get_double).
Local Abbreviation read_face := (read_face num_get_int).

Lemma extract_double_reads_back t v rest x0 :
  reads_back num_get_double t v → field_end rest →
  extract_double (MkIstream (" "%char :: t ++ rest) false false) x0
  = (Some v, MkIstream rest (bool_decide (rest = [])) false).
Proof.
  intros [Hf Hget] Hr. unfold IO.extract_double, sentry. simpl.
  destruct (skip_space_field t rest Hf) as (c & l & E & ->).
  simpl. rewrite <- E. by rewrite Hget.
Qed.

Lemma extract_int_reads_back t v rest x0 :
  reads_back num_get_int t v → field_end rest →
  extract_int (MkIstream (" "%char :: t ++ rest) false false) x0
  = (Some v, MkIstream rest (bool_decide (rest = [])) false).
Proof.
  intros [Hf Hget] Hr. unfold IO.extract_int, sentry. simpl.
  destruct (skip_space_field t rest Hf) as (c & l & E & ->).
  simpl. rewrite <- E. by rewrite Hget.
Qed.

Lemma extract_word_numbers w a b c rest :
  isspace w = false →
  extract_word (open_line (numbers_line w a b c ++ rest))
  = ([w], MkIstream (" "%char :: a ++ " "%char :: b ++ " "%char :: c ++ rest)
                    false false).
Proof.
  intros Hw. unfold extract_word, sentry, open_line, numbers_line. simpl.
  rewrite Hw. simpl. rewrite Hw.
  by repeat (rewrite <- app_assoc; simpl).
Qed.

Lemma read_vertex_numbers a b c x y z rest :
  reads_back num_get_double a x → reads_back num_get_double b y →
  reads_back num_get_double c z → field_end rest →
  read_vertex (MkIstream (" "%char :: a ++ " "%char :: b ++ " "%char :: c
                          ++ rest) false false)
  = Some (Vec x y z).
Proof.
  intros Ha Hb Hc Hr. unfold IO.read_vertex.
  rewrite (extract_double_reads_back _ _ _ _ Ha) by (right; eauto).
  rewrite bool_decide_false by done.
  rewrite (extract_double_reads_back _ _ _ _ Hb) by (right; eauto).
  rewrite bool_decide_false by done.
  destruct Hr as [->|[r ->]].
  - by rewrite (extract_double_reads_back _ _ _ _ Hc) by (by left).
  - by rewrite (extract_double_reads_back _ _ _ _ Hc) by (right; eauto).
Qed.

Lemma read_face_numbers a b c i j k rest :
  reads_back num_get_int a i → reads_back num_get_int b j →
  reads_back num_get_int c k → field_end rest →
  read_face (MkIstream (" "%char :: a ++ " "%char :: b ++ " "%char :: c
                        ++ rest) false false)
  = (i ← decrement i; j ← decrement j; k ← decrement k; Some (Tri i j k)).
Proof.
  intros Ha Hb Hc Hr. unfold IO.read_face.
  rewrite (extract_int_reads_back _ _ _ _ Ha) by (right; eauto).
  rewrite bool_decide_false by done.
  rewrite (extract_int_reads_back _ _ _ _ Hb) by (right; eauto).
  rewrite bool_decide_false by done.
  destruct Hr as [->|[r ->]].
  - by rewrite (extract_int_reads_back _ _ _ _ Hc) by (by left).
  - by rewrite (extract_int_reads_back _ _ _ _ Hc) by (right; eauto).
Qed.

Lemma load_lines_cons s line lines :
  load_lines s (line :: lines) = s' ← load_line s line; load_lines s' lines.
Proof. reflexivity. Qed.

Lemma load_line_numbers s w a b c rest :
  numbers_read_back num_get_double num_get_int w a b c → field_end rest →
  load_line s (numbers_line w a b c ++ rest)
  = load_line s (numbers_line w a b c).
Proof.
  intros Hn Hr.
  rewrite <- (app_nil_r (numbers_line w a b c)) at 2.
  unfold IO.load_line.
  destruct Hn as [[-> (x & y & z & Ha & Hb & Hc)]
                 |[-> (i & j & k & Ha & Hb & Hc)]].
  - rewrite !extract_word_numbers by done. rewrite decide_True by done.
    rewrite !(read_vertex_numbers a b c x y z) by (done || by left). done.
  - rewrite !extract_word_numbers by done.
    rewrite decide_False by done. rewrite decide_True by done.
    rewrite !(read_face_numbers a b c i j k) by (done || by left). done.
Qed.

(** X17.  What follows the third number of a line [v] or [f] is
    ignored: a fourth index (a quad), a comment or any other text
    after a space changes nothing of what [load] returns. *)
Theorem load_ignores_trailing_text before w a b c more after s :
  terminated before →
  numbers_read_back num_get_double num_get_int w a b c →
  one_line more →
  load (Some (before ++ numbers_line w a b c ++ " "%char :: more
              ++ newline :: after)) s
  = load (Some (before ++ numbers_line w a b c ++ newline :: after)) s.
Proof.
  intros Hb Hn Hm. unfold IO.load.
  assert (Hline : one_line (numbers_line w a b c)).
  { destruct Hn as [[-> (x & y & z & Ha & Hb' & Hc)]
                   |[-> (i & j & k & Ha & Hb' & Hc)]];
      apply numbers_line_no_newline; try done;
      first [apply Ha | apply Hb' | apply Hc]. }
  replace (numbers_line w a b c ++ " "%char :: more ++ newline :: after)
    with ((numbers_line w a b c ++ " "%char :: more) ++ newline :: after)
    by (by rewrite <- app_assoc).
  rewrite !(getlines_terminated before) by done.
  rewrite !getlines_line; [|done|].
  2: { apply Forall_app. split; [done|]. by constructor. }
  rewrite !load_lines_app.
  destruct (load_lines _ (getlines before)) as [s1|]; [|done].
  cbn [mbind option_bind]. rewrite !load_lines_cons.
  by rewrite load_line_numbers by (done || right; eauto).
Qed.

End LineFacts.

(** ** Saving, and loading what was saved *)

Section SaveFacts.

Variable num_get_double : text → extracted float.
Variable num_get_int : text → extracted Z.
Variable put_double : float → text.
Variable put_int : Z → text.

Local Abbreviation load_line := (load_line num_get_double num_get_int).
Local Abbreviation load_lines := (load_lines num_get_double num_get_int).
Local Abbreviation load := (load num_get_double num_get_int).
Local Abbreviation vertex_line := (vertex_line put_double).
Local Abbreviation face_line := (face_line put_int).
Local Abbreviation save := (save put_double put_int).

Lemma load_vertex_line (reread : float → float) s p :
  reads_back num_get_double (put_double (c0 p)) (reread (c0 p)) →
  reads_back num_get_double (put_double (c1 p)) (reread (c1 p)) →
  reads_back num_get_double (put_double (c2 p)) (reread (c2 p)) →
  load_line s (numbers_line "v" (put_double (c0 p)) (put_double (c1 p))
                            (put_double (c2 p)))
  = Some (push_position s (map_vector reread p)).
Proof.
  intros H0 H1 H2. unfold IO.load_line.
  rewrite <- (app_nil_r (numbers_line _ _ _ _)).
  rewrite extract_word_numbers by done. rewrite decide_True by done.
  by rewrite (read_vertex_numbers num_get_double _ _ _ _ _ _ [] H0 H1 H2)
    by (by left).
Qed.

Lemma load_face_line s t i j k :
  increment (t0 t) = Some i → increment (t1 t) = Some j →
  increment (t2 t) = Some k →
  - 2 ^ 31 ≤ t0 t → - 2 ^ 31 ≤ t1 t → - 2 ^ 31 ≤ t2 t →
  reads_back num_get_int (put_int i) i →
  reads_back num_get_int (put_int j) j →
  reads_back num_get_int (put_int k) k →
  load_line s (numbers_line "f" (put_int i) (put_int j) (put_int k))
  = Some (push_triangle s t).
Proof.
  intros Hi Hj Hk L0 L1 L2 H0 H1 H2. unfold IO.load_line.
  rewrite <- (app_nil_r (numbers_line _ _ _ _)).
  rewrite extract_word_numbers by done.
  rewrite decide_False by done. rewrite decide_True by done.
  rewrite (read_face_numbers num_get_int _ _ _ _ _ _ [] H0 H1 H2)
    by (by left).
  unfold increment in *. unfold decrement.
  repeat case_match; simplify_eq; try lia.
  simpl. destruct t; simpl in *. do 2 f_equal. f_equal; lia.
Qed.

Lemma numbers_line_app w a b c r :
  (w :: " "%char :: a ++ " "%char :: b ++ " "%char :: c ++ [newline]) ++ r
  = numbers_line w a b c ++ newline :: r.
Proof.
  unfold numbers_line. simpl. by repeat (rewrite <- app_assoc; simpl).
Qed.

Lemma vertex_line_numbers p r :
  vertex_line p ++ r
  = numbers_line "v" (put_double (c0 p)) (put_double (c1 p))
                 (put_double (c2 p)) ++ newline :: r.
Proof.
  apply numbers_line_app.
Qed.

Lemma load_saved_vertices (reread : float → float) ps r s :
  Forall (λ p, Forall (λ x, reads_back num_get_double (put_double x)
                                       (reread x)) [c0 p; c1 p; c2 p]) ps →
  load_lines s (getlines (concat (vertex_line <$> ps) ++ r))
  = load_lines (MkSlicer (positions s ++ (map_vector reread <$> ps))
                         (triangles s) (origin s) (normal s)
                         (intersections s))
               (getlines r).
Proof.
  intros H. revert s. induction H as [|p ps Hp _ IH]; intros s.
  - simpl. rewrite app_nil_r. by destruct s.
  - rewrite fmap_cons.
    change (concat (vertex_line p :: (vertex_line <$> ps)))
      with (vertex_line p ++ concat (vertex_line <$> ps)).
    rewrite <- app_assoc, vertex_line_numbers.
    apply Forall_cons in Hp as [H0 Hp]. apply Forall_cons in Hp as [H1 Hp].
    apply Forall_cons in Hp as [H2 _].
    rewrite getlines_line
      by (apply numbers_line_no_newline; [done|apply H0|apply H1|apply H2]).
    simpl. rewrite (load_vertex_line reread) by done. simpl.
    rewrite IH. unfold push_position. simpl. by rewrite <- app_assoc.
Qed.

Lemma load_saved_faces ts faces s :
  Forall (λ t, Forall (λ i, - 2 ^ 31 ≤ i < 2 ^ 31 - 1
                            ∧ reads_back num_get_int (put_int (i + 1)) (i + 1))
                      [t0 t; t1 t; t2 t]) ts →
  mapM face_line ts = Some faces →
  load_lines s (getlines (concat faces))
  = Some (MkSlicer (positions s) (triangles s ++ ts) (origin s) (normal s)
                   (intersections s)).
Proof.
  intros H Hm. apply mapM_Some in Hm. revert s.
  induction Hm as [|t line ts faces Hline _ IH]; intros s.
  - simpl. rewrite app_nil_r. by destruct s.
  - apply Forall_cons in H as [Ht H]. specialize (IH H).
    apply Forall_cons in Ht as [[R0 H0] Ht].
    apply Forall_cons in Ht as [[R1 H1] Ht].
    apply Forall_cons in Ht as [[R2 H2] _].
    unfold IO.face_line in Hline.
    destruct (increment (t0 t)) as [i|] eqn:Ei; [|done].
    destruct (increment (t1 t)) as [j|] eqn:Ej; [|done].
    destruct (increment (t2 t)) as [k|] eqn:Ek; [|done].
    simpl in Hline. injection Hline as <-.
    assert (i = t0 t + 1 ∧ j = t1 t + 1 ∧ k = t2 t + 1) as (-> & -> & ->).
    { unfold increment in *. repeat case_match; by simplify_eq. }
    rewrite concat_cons, numbers_line_app.
    rewrite getlines_line
      by (apply numbers_line_no_newline; [done|apply H0|apply H1|apply H2]).
    simpl. rewrite (load_face_line s t) by (done || lia). simpl.
    rewrite IH. unfold push_triangle. simpl. by rewrite <- app_assoc.
Qed.

Lemma save_defined s :
  Forall (λ i, i ≠ Int.max_signed) (indices s) →
  ∃ faces, mapM face_line (triangles s) = Some faces.
Proof.
  intros H. apply (mapM_is_Some face_line).
  unfold indices in H. apply Forall_bind in H.
  eapply Forall_impl; [done|]. intros t Ht. simpl in Ht.
  apply Forall_cons in Ht as [H0 Ht]. apply Forall_cons in Ht as [H1 Ht].
  apply Forall_cons in Ht as [H2 _].
  unfold IO.face_line, increment. simpl.
  rewrite !(proj2 (Z.eqb_neq _ _)) by done. done.
Qed.

(** X12.  What [save] writes, [load] reads back.  If every coordinate
    of the mesh is written as a text that is read back (as [reread] of
    it), and every index is an [int] below [INT_MAX] whose successor is
    written as a text that is read back as itself, then [save] writes a
    file, and [load] of that file, from any state, gives the vertices
    re-read in the same order and exactly the same triangles. *)
Theorem save_load_round_trip (reread : float → float) s :
  Forall (λ x, reads_back num_get_double (put_double x) (reread x))
         (coordinates s) →
  Forall (λ i, - 2 ^ 31 ≤ i < 2 ^ 31 - 1
               ∧ reads_back num_get_int (put_int (i + 1)) (i + 1))
         (indices s) →
  ∃ content,
    save true s = Some (Some content)
    ∧ ∀ s0, load (Some content) s0
            = Some (MkSlicer (map_vector reread <$> positions s) (triangles s)
                             (origin s0) (normal s0) (intersections s0),
                    true).
Proof.
  intros Hd Hi.
  destruct (save_defined s) as [faces Hfaces].
  { eapply Forall_impl; [exact Hi|]. simpl. unfold Int.max_signed. lia. }
  exists (concat (vertex_line <$> positions s) ++ concat faces). split.
  - unfold IO.save. unfold text in *. by rewrite Hfaces.
  - intros s0. unfold IO.load.
    unfold coordinates in Hd. apply Forall_bind in Hd.
    unfold indices in Hi. apply Forall_bind in Hi.
    rewrite (load_saved_vertices reread) by exact Hd.
    rewrite (load_saved_faces (triangles s) faces) by done.
    done.
Qed.

End SaveFacts.

(** ** From [load] to [cut] *)

Section PipelineFacts.

Variable num_get_double : text → extracted float.
Variable num_get_int : text → extracted Z.

Local Abbreviation load := (load num_get_double num_get_int).

Lemma get_intersection_no_vertex s i j :
  positions s = [] → get_intersection s i j = None.
Proof.
  intros Hp. unfold get_intersection.
  destruct (canonical i j) as [a b]. rewrite Hp.
  unfold at_index. by destruct (a <? 0).
Qed.

Lemma do_triangle_no_vertex s tid :
  positions s = [] → do_triangle s tid = None.
Proof.
  intros Hp. unfold do_triangle. rewrite do_triangle_from_S.
  destruct (at_index (triangles s) tid) as [t|]; [|done].
  cbn -[Nat.modulo get_intersection].
  by rewrite get_intersection_no_vertex.
Qed.

(** X18.  [load] does not validate what it reads: for a file made of
    one face line and no vertex, it returns [true] with a triangle over
    vertices that do not exist.  The mesh is not valid, and [cut] on it
    (with a plane origin that is not the world origin) reads
    [positions] out of bounds at its first visit: its behaviour is
    undefined. *)
Theorem load_does_not_validate a b c i j k s :
  reads_back num_get_int a i → reads_back num_get_int b j →
  reads_back num_get_int c k →
  i ≠ - 2 ^ 31 → j ≠ - 2 ^ 31 → k ≠ - 2 ^ 31 →
  ∃ s', load (Some (numbers_line "f" a b c)) s = Some (s', true)
        ∧ positions s' = []
        ∧ triangles s' = [Tri (i - 1) (j - 1) (k - 1)]
        ∧ ¬ valid_mesh s'
        ∧ (origin_is_zero s = false → ∀ fuel, cut (S fuel) s' = Undefined).
Proof.
  intros Ha Hb Hc Hi Hj Hk.
  exists (push_triangle (clear s) (Tri (i - 1) (j - 1) (k - 1))).
  split_and!; try done.
  - unfold IO.load.
    rewrite getlines_last;
      [|done|apply numbers_line_no_newline; [done|apply Ha|apply Hb|apply Hc]].
    rewrite (load_lines_cons num_get_double num_get_int). unfold IO.load_line.
    rewrite <- (app_nil_r (numbers_line _ _ _ _)).
    rewrite extract_word_numbers by done.
    rewrite decide_False by done. rewrite decide_True by done.
    rewrite (read_face_numbers num_get_int _ _ _ _ _ _ [] Ha Hb Hc)
      by (by left).
    unfold decrement. rewrite !(proj2 (Z.eqb_neq _ _)) by done. done.
  - intros Hv. apply Forall_cons in Hv as [(H0 & _) _].
    unfold valid_index in H0. simpl in H0. lia.
  - intros Ho fuel. unfold cut.
    change (origin_is_zero (set_intersections _ ∅)) with (origin_is_zero s).
    rewrite Ho. cbn [cut_loop].
    rewrite decide_True by (simpl; lia).
    by rewrite do_triangle_no_vertex.
Qed.

End PipelineFacts.

(** ** Instances of the theorems *)

(** Every state of the run of the scenario is settled. *)
Lemma scenario_settled n :
  splits_settled 3 (cut_state n (set_intersections scenario ∅) 0).1 = true.
Proof.
  destruct n as [|[|[|[|[|[|n]]]]]]; by vm_compute.
Qed.

(** [cut_zero_normal_noop] on the scenario with a zero normal. *)
Lemma cut_zero_normal_noop_witness :
  normal_is_zero flat = true ∧
  ∃ s', cut 1 flat = Done s' ∧
        positions s' = positions flat ∧ triangles s' = triangles flat.
Proof.
  split; [reflexivity|].
  apply (cut_zero_normal_noop flat 1).
  - reflexivity.
  - repeat constructor; simpl; lia.
  - simpl. lia.
  - simpl. lia.
Defined.

(** [cut_origin_zero_returns] on a triangle across the plane [x = 0]:
    the loop alone would split it into three, [cut] returns it
    untouched. *)
Lemma cut_origin_zero_returns_witness :
  (origin_is_zero through_origin = true ∧
   ∃ s', cut_loop 6 (set_intersections through_origin ∅) 0 = Done s' ∧
         length (triangles s') = 3%nat) ∧
  cut 6 through_origin = Done (set_intersections through_origin ∅) ∧
  intersections (set_intersections through_origin ∅) = ∅ ∧
  positions (set_intersections through_origin ∅) = positions through_origin ∧
  triangles (set_intersections through_origin ∅) = triangles through_origin.
Proof.
  split.
  - split; [reflexivity|]. eexists. split; vm_compute; reflexivity.
  - apply (cut_origin_zero_returns through_origin 6). reflexivity.
Defined.

(** [crossing_iff_closed_interval] on edge 1-2 of the scenario. *)
Lemma crossing_iff_closed_interval_witness :
  edge_lambda scenario 1 2 = Some 0.5%float ∧
  in_tolerance 0.5%float ∧
  ∃ s' m, get_intersection scenario 1 2 = Some (s', m) ∧
          intersections s' !! canonical 1 2 = Some m ∧
          (intersections scenario !! canonical 1 2 = None →
             length (positions s') = S (length (positions scenario))).
Proof.
  assert (El : edge_lambda scenario 1 2 = Some 0.5%float)
    by (vm_compute; reflexivity).
  assert (Hin : in_tolerance 0.5%float)
    by (repeat split; vm_compute; reflexivity).
  split; [exact El|]. split; [exact Hin|].
  exact (proj1 (crossing_iff_closed_interval scenario 1 2 0.5%float El) Hin).
Defined.

(** [edge_split_idempotent] on edge 1-2 of the scenario. *)
Lemma edge_split_idempotent_witness :
  ∃ s1 m,
    get_intersection scenario 1 2 = Some (s1, m) ∧
    get_intersection scenario 2 1 = Some (s1, m) ∧
    (intersections scenario !! canonical 1 2 = None →
       length (positions s1) = S (length (positions scenario))) ∧
    (is_Some (intersections scenario !! canonical 1 2) → s1 = scenario) ∧
    ∀ s2, cut_calls s1 s2 →
      get_intersection s2 1 2 = Some (s2, m) ∧
      get_intersection s2 2 1 = Some (s2, m).
Proof.
  apply (edge_split_idempotent scenario 1 2 0.5%float).
  - vm_compute. reflexivity.
  - vm_compute. reflexivity.
Defined.

(** The run of the rotated scenario. *)
Lemma rotated_cut_run : cut_loop 5 rotated 0 = Done rotated_cut.
Proof. vm_compute. reflexivity. Qed.

(** [do_triangle_first_split] on the rotated scenario: the first visit
    splits on its second edge, the next visit of the same slot splits
    again, and the third answers [false]. *)
Lemma do_triangle_first_split_witness :
  do_triangle rotated 0 =
    Some (set_triangles rotated_first [Tri 2 3 1; Tri 2 0 3], true) ∧
  cut_state 1 rotated 0
  = (set_triangles rotated_first [Tri 2 3 1; Tri 2 0 3], 0%nat) ∧
  ∃ v s_v s_e,
    splits_at 0 v (set_triangles rotated_first [Tri 2 3 1; Tri 2 0 3]) s_v ∧
    do_triangle s_v 0 = Some (s_e, false) ∧
    (v + 2 ≤ 5)%nat ∧
    cut_state (v + 2) rotated 0 = (s_e, 1%nat) ∧
    cut_loop (5 - (v + 2)) s_e 1 = Done rotated_cut.
Proof.
  destruct (do_triangle_first_split rotated 0 (Tri 1 2 0) 1 rotated_first 3)
    as (Hd & _ & _ & Hloop).
  - reflexivity.
  - lia.
  - intros n' Hn'. assert (n' = 0%nat) as -> by lia. vm_compute. reflexivity.
  - vm_compute. reflexivity.
  - unfold NONE. lia.
  - destruct (Hloop 0%nat) as (Hone & _ & _ & Hret);
      [simpl; lia|reflexivity|].
    split; [exact Hd|]. split; [exact Hone|].
    exact (Hret 5%nat rotated_cut rotated_cut_run).
Defined.

(** [mutations_preserve_valid_mesh] on the scenario. *)
Lemma mutations_preserve_valid_mesh_witness :
  valid_mesh scenario ∧
  ∀ fuel s', cut fuel scenario = Done s' → vertices_fit s' → valid_mesh s'.
Proof.
  assert (Hv : valid_mesh scenario) by (repeat constructor; simpl; lia).
  split; [exact Hv|].
  exact (proj2 (proj2 (mutations_preserve_valid_mesh scenario Hv))).
Defined.

(** [get_intersection_outcome] on edge 1-2 of the scenario. *)
Lemma get_intersection_outcome_witness :
  ∃ s' m lambda,
    get_intersection scenario 1 2 = Some (s', m) ∧
    edge_lambda scenario 1 2 = Some lambda ∧
    ((no_intersection lambda = true ∧ m = NONE ∧ s' = scenario)
     ∨ (no_intersection lambda = false ∧ valid_index s' m ∧ m ≠ NONE ∧
        triangles s' = triangles scenario ∧
        ((intersections scenario !! canonical 1 2 = Some m ∧ s' = scenario)
         ∨ (intersections scenario !! canonical 1 2 = None ∧
            m = Z.of_nat (length (positions scenario)) ∧
            intersections s' = <[canonical 1 2 := m]> (intersections scenario) ∧
            ∃ v, positions s' = positions scenario ++ [v])))).
Proof.
  apply (get_intersection_outcome scenario 1 2).
  - unfold valid_index. simpl. lia.
  - unfold valid_index. simpl. lia.
  - intros key m. simpl. intros H. rewrite lookup_empty in H. discriminate.
  - vm_compute. discriminate.
Defined.


(** [cut_terminates_when_splits_settled] on the scenario. *)
Lemma cut_terminates_when_splits_settled_witness :
  ∃ s', cut 7 scenario = Done s' ∧
    (length (triangles s') - length (triangles scenario)
     ≤ 3 * length (triangles scenario))%nat ∧
    (length (positions s') - length (positions scenario)
     ≤ 3 * length (triangles scenario))%nat.
Proof.
  apply (cut_terminates_when_splits_settled scenario 7).
  - repeat constructor; simpl; lia.
  - vm_compute. discriminate.
  - vm_compute. discriminate.
  - exact scenario_settled.
  - simpl. lia.
Defined.

(** The run of the scenario. *)
Lemma scenario_cut_run : cut 5 scenario = Done scenario_cut.
Proof. vm_compute. reflexivity. Qed.

Lemma valid_mesh_scenario : valid_mesh scenario.
Proof. repeat constructor; simpl; lia. Qed.

(** [cut_leaves_no_crossing_edge] on the scenario. *)
Lemma cut_leaves_no_crossing_edge_witness :
  Forall (triangle_rejected scenario_cut) (triangles scenario_cut).
Proof.
  apply (cut_leaves_no_crossing_edge scenario 5 scenario_cut).
  - exact valid_mesh_scenario.
  - reflexivity.
  - exact scenario_cut_run.
  - unfold vertices_fit. simpl. lia.
  - unfold triangles_fit. simpl. lia.
Defined.

(** [cut_twice] on the scenario. *)
Lemma cut_twice_witness :
  ∃ s'', cut 3 scenario_cut = Done s'' ∧
         positions s'' = positions scenario_cut ∧
         triangles s'' = triangles scenario_cut.
Proof.
  apply (cut_twice scenario 5 scenario_cut 3).
  - exact valid_mesh_scenario.
  - exact scenario_cut_run.
  - unfold vertices_fit. simpl. lia.
  - unfold triangles_fit. simpl. lia.
  - simpl. lia.
Defined.

(** [cut_append_only] on the scenario. *)
Lemma cut_append_only_witness :
  positions scenario `prefix_of` positions scenario_cut ∧
  (∀ i p, at_index (positions scenario) i = Some p →
          at_index (positions scenario_cut) i = Some p) ∧
  origin scenario_cut = origin scenario ∧
  normal scenario_cut = normal scenario ∧
  (length (triangles scenario) ≤ length (triangles scenario_cut))%nat.
Proof. exact (cut_append_only scenario 5 scenario_cut scenario_cut_run). Defined.

(** [cut_one_vertex_per_edge] on the scenario: two new vertices, two
    entries. *)
Lemma cut_one_vertex_per_edge_witness :
  (length (positions scenario_cut) - length (positions scenario))%nat
  = size (intersections scenario_cut) ∧
  (∀ key m, intersections scenario_cut !! key = Some m →
     Z.of_nat (length (positions scenario)) ≤ m
     < Z.of_nat (length (positions scenario_cut))) ∧
  (∀ k1 k2 m, intersections scenario_cut !! k1 = Some m →
     intersections scenario_cut !! k2 = Some m → k1 = k2).
Proof.
  apply (cut_one_vertex_per_edge scenario 5 scenario_cut).
  - exact scenario_cut_run.
  - unfold vertices_fit. simpl. lia.
Defined.

(** [cut_split_vertices_interpolate] on edge 0-1 of the scenario. *)
Lemma cut_split_vertices_interpolate_witness :
  0 ≤ 1 ∧
  ∃ p q, at_index (positions scenario_cut) 0 = Some p ∧
         at_index (positions scenario_cut) 1 = Some q ∧
         in_tolerance (get_lambda scenario p q) ∧
         at_index (positions scenario_cut) 4
         = Some (interpolate (get_lambda scenario p q) p q).
Proof.
  apply (cut_split_vertices_interpolate scenario 5 scenario_cut 0 1 4).
  - exact scenario_cut_run.
  - unfold vertices_fit. simpl. lia.
  - vm_compute. reflexivity.
Defined.

(** [parallel_edge_never_split] on edge 0-2 of the scenario, which
    lies in the plane [x = 0], parallel to the cutting plane. *)
Lemma parallel_edge_never_split_witness :
  is_finite (get_lambda scenario (Vec 0 0 0) (Vec 0 2 0)) = false ∧
  get_intersection scenario 2 0 = Some (scenario, NONE).
Proof.
  apply (parallel_edge_never_split scenario 2 0 (Vec 0 0 0) (Vec 0 2 0)).
  - reflexivity.
  - reflexivity.
  - vm_compute. reflexivity.
Defined.

(** [zero_length_edge_never_split] on the collapsed triangle. *)
Lemma zero_length_edge_never_split_witness :
  get_intersection collapsed 0 1 = Some (collapsed, NONE) ∧
  ∀ tid k, at_index (triangles collapsed) tid = Some (Tri 0 1 k) →
           at_index (positions collapsed) k = Some (Vec 2 1 0) →
           do_triangle collapsed tid = Some (collapsed, false).
Proof.
  apply (zero_length_edge_never_split collapsed 0 1 (Vec 2 1 0)).
  - reflexivity.
  - reflexivity.
Defined.

(** [cut_visit_count] on the scenario: five visits for one triangle
    that becomes three. *)
Lemma cut_visit_count_witness :
  cut 4 scenario = OutOfFuel ∧ cut 6 scenario = Done scenario_cut.
Proof.
  pose proof (cut_visit_count scenario 5 scenario_cut eq_refl scenario_cut_run)
    as H.
  split.
  - apply (H 4%nat). simpl. lia.
  - apply (H 6%nat). simpl. lia.
Defined.

(** The one-digit format reads back what it writes. *)
Lemma digit_double_reads_back x :
  x = 0%float ∨ x = 1%float →
  reads_back digit_get_double (digit_put_double x) x.
Proof.
  intros [-> | ->]; (split; [split; [done|by repeat constructor]|]);
    intros rest _; reflexivity.
Qed.

Lemma digit_int_reads_back i :
  0 ≤ i ≤ 9 → reads_back digit_get_int (digit_put_int i) i.
Proof.
  intros Hi.
  assert (i = 0 ∨ i = 1 ∨ i = 2 ∨ i = 3 ∨ i = 4 ∨ i = 5 ∨ i = 6 ∨ i = 7
          ∨ i = 8 ∨ i = 9) as H by lia.
  repeat destruct H as [-> | H]; try subst i;
    (split; [split; [done|by repeat constructor]|]);
    intros rest _; reflexivity.
Qed.

Lemma load_wedge_obj s :
  load digit_get_double digit_get_int (Some wedge_obj) s
  = Some (MkSlicer (positions wedge) (triangles wedge) (origin s) (normal s)
                   (intersections s), true).
Proof. destruct s. vm_compute. reflexivity. Qed.

(** [load_replaces_mesh] on the file of the wedge, loaded over the
    scenario. *)
Lemma load_replaces_mesh_witness :
  let s' := MkSlicer (positions wedge) (triangles wedge) (origin scenario)
                     (normal scenario) (intersections scenario) in
  true = bool_decide (is_Some (Some wedge_obj))
  ∧ (true = false → positions s' = [] ∧ triangles s' = [])
  ∧ origin s' = origin scenario ∧ normal s' = normal scenario
  ∧ intersections s' = intersections scenario
  ∧ ∀ s2, load digit_get_double digit_get_int (Some wedge_obj) s2
          = Some (MkSlicer (positions s') (triangles s') (origin s2)
                           (normal s2) (intersections s2), true).
Proof.
  exact (load_replaces_mesh digit_get_double digit_get_int (Some wedge_obj)
           scenario _ true (load_wedge_obj scenario)).
Defined.

(** [load_ignores_other_lines] on a normal between a vertex and a
    face. *)
Lemma load_ignores_other_lines_witness :
  load digit_get_double digit_get_int
       (Some (txt "v 0 0 0
" ++ txt "vn 0 0 1" ++ newline :: txt "f 1 1 1")) scenario
  = load digit_get_double digit_get_int
         (Some (txt "v 0 0 0
" ++ txt "f 1 1 1")) scenario.
Proof.
  apply (load_ignores_other_lines digit_get_double digit_get_int).
  - right. reflexivity.
  - repeat constructor.
  - vm_compute. discriminate.
  - vm_compute. discriminate.
Defined.

(** [load_counts_lines] on the file of the wedge: four lines [v], two
    lines [f], three other lines. *)
Lemma load_counts_lines_witness :
  length (positions wedge)
  = length (filter (λ l, first_word l = txt "v") (getlines wedge_obj))
  ∧ length (triangles wedge)
  = length (filter (λ l, first_word l = txt "f") (getlines wedge_obj)).
Proof.
  exact (load_counts_lines digit_get_double digit_get_int wedge_obj scenario
           _ true (load_wedge_obj scenario)).
Defined.

(** [load_line_without_numbers] on a file whose second line is the
    word [f] alone. *)
Lemma load_line_without_numbers_witness :
  load digit_get_double digit_get_int
       (Some (txt "v 0 0 0
" ++ "f"%char :: txt " " ++ newline :: txt "v 1 1 1")) scenario
  = None.
Proof.
  apply (load_line_without_numbers digit_get_double digit_get_int).
  - by right.
  - repeat constructor.
  - repeat constructor.
  - right. reflexivity.
Defined.

(** [save_load_round_trip] on the wedge, in the one-digit format. *)
Lemma save_load_round_trip_witness :
  ∃ content,
    save digit_put_double digit_put_int true wedge = Some (Some content)
    ∧ ∀ s0, load digit_get_double digit_get_int (Some content) s0
            = Some (MkSlicer ((map_vector (λ x, x)) <$> positions wedge)
                             (triangles wedge)
                             (origin s0) (normal s0) (intersections s0),
                    true).
Proof.
  apply (save_load_round_trip digit_get_double digit_get_int
           digit_put_double digit_put_int (λ x, x) wedge).
  - unfold coordinates. simpl.
    repeat (constructor; [apply digit_double_reads_back; auto|]).
    constructor.
  - unfold indices. simpl.
    repeat (constructor; [split; [lia|apply digit_int_reads_back; lia]|]).
    constructor.
Defined.

(** [cut_new_vertices_le_new_triangles] on the scenario: two vertices
    and two triangles more. *)
Lemma cut_new_vertices_le_new_triangles_witness :
  (length (positions scenario_cut) - length (positions scenario)
   ≤ length (triangles scenario_cut) - length (triangles scenario))%nat.
Proof.
  apply (cut_new_vertices_le_new_triangles scenario 5 scenario_cut).
  - exact valid_mesh_scenario.
  - exact scenario_cut_run.
  - unfold vertices_fit. simpl. lia.
Defined.

(** [nan_edge_never_split] on edge 0-1 of the stray mesh, which the
    plane would cross without the NaN. *)
Lemma nan_edge_never_split_witness :
  get_intersection stray 0 1 = Some (stray, NONE).
Proof.
  apply (nan_edge_never_split stray 0 1 (Vec 0 0 0) (Vec 2 nan 0)).
  - reflexivity.
  - reflexivity.
  - vm_compute. reflexivity.
Defined.

(** [cut_nan_plane_noop] on the scenario with a NaN in its plane. *)
Lemma cut_nan_plane_noop_witness :
  ∃ s', cut 1 unplaced = Done s' ∧
        positions s' = positions unplaced ∧
        triangles s' = triangles unplaced.
Proof.
  apply (cut_nan_plane_noop unplaced 1).
  - vm_compute. reflexivity.
  - repeat constructor; simpl; lia.
  - unfold triangles_fit. simpl. lia.
  - simpl. lia.
Defined.

(** [load_ignores_trailing_text] on a quad, in the one-digit format:
    the fourth index is dropped. *)
Lemma load_ignores_trailing_text_witness :
  load digit_get_double digit_get_int (Some (txt "f 1 2 3 4
")) scenario
  = load digit_get_double digit_get_int (Some (txt "f 1 2 3
")) scenario.
Proof.
  apply (load_ignores_trailing_text digit_get_double digit_get_int
           [] "f" (txt "1") (txt "2") (txt "3") (txt "4") [] scenario).
  - by left.
  - right. split; [done|]. exists 1, 2, 3.
    split_and!.
    + apply (digit_int_reads_back 1). lia.
    + apply (digit_int_reads_back 2). lia.
    + apply (digit_int_reads_back 3). lia.
  - repeat constructor.
Defined.

(** [load_does_not_validate] on a file that holds one face, in the
    one-digit format. *)
Lemma load_does_not_validate_witness :
  ∃ s', load digit_get_double digit_get_int (Some (txt "f 1 2 3")) scenario
        = Some (s', true)
        ∧ positions s' = []
        ∧ triangles s' = [Tri 0 1 2]
        ∧ ¬ valid_mesh s'
        ∧ (origin_is_zero scenario = false →
           ∀ fuel, cut (S fuel) s' = Undefined).
Proof.
  apply (load_does_not_validate digit_get_double digit_get_int
           (txt "1") (txt "2") (txt "3") 1 2 3 scenario).
  - apply (digit_int_reads_back 1). lia.
  - apply (digit_int_reads_back 2). lia.
  - apply (digit_int_reads_back 3). lia.
  - lia.
  - lia.
  - lia.
Defined.
